(** * Centripetal Catmull-Rom spline of the FlyingNavSystem plugin

    A shallow embedding of [UCatmullRomSpline]
    (Plugins/FlyingNavSystem/Source/FlyingNavSystem/Public/FlyingNavFunctionLibrary.h).

    The header declares the object's fields and gives the bodies of
    [GetArcLength], [SampleSplineByDistance] and [MakeCatmullRomSpline];
    these are embedded from the header.  The bodies of [GenerateSpline],
    [FillLUT], [SampleSplineByParameter], [FindParameterForDistance] and
    [EquidistantSamples] live in a translation unit that is not part of the
    sources at hand; they are modelled from the design document, and every
    such definition says so.

    Numbers: the C++ [float] is idealised as a real number ([R]); rounding,
    NaN and infinities are outside the model.  [FVector] is a triple of
    reals.  [TArray] is a list.  A failed [ensureMsgf] is a diagnostic
    carried next to the returned value; a failed array range check is
    [Crashed].

    Layout of a built spline.  The stored control points are the usable
    input points (consecutive duplicates removed) between a leading and a
    trailing phantom point.  The parameter range [0,1] corresponds to
    PathPoints[1] -> PathPoints[n-2], the second to the second-to-last
    input point, as the header comment on [SampleSplineByParameter] says;
    the first and the last input point only shape the curve at its ends.

    The camera boom.  [AGravityCharacterCharacter::LookUpAtRate]
    (Source/GravityCharacter/GravityCharacterCharacter.cpp) is embedded
    from its body, as a function on the relative rotation of the camera
    boom of the player character. *)

From Stdlib Require Import String Reals Lra Lia Bool Arith ZArith List.
Import ListNotations.

Open Scope R_scope.

(** ** Engine types *)

(** Modelled from the spec: [FVector] is an engine type whose declaration is
    missing; a 3D point with real components. *)
Record FVector : Type := MakeVector { vX : R; vY : R; vZ : R }.

Definition ZeroVector : FVector := MakeVector 0 0 0.

Definition VAdd (p q : FVector) : FVector :=
  MakeVector (vX p + vX q) (vY p + vY q) (vZ p + vZ q).

Definition VSub (p q : FVector) : FVector :=
  MakeVector (vX p - vX q) (vY p - vY q) (vZ p - vZ q).

Definition VScale (k : R) (p : FVector) : FVector :=
  MakeVector (k * vX p) (k * vY p) (k * vZ p).

Definition SizeSquared (p : FVector) : R :=
  vX p * vX p + vY p * vY p + vZ p * vZ p.

Definition Size (p : FVector) : R := sqrt (SizeSquared p).

(** [FVector::Dist]: Euclidean distance. *)
Definition Dist (p q : FVector) : R := Size (VSub q p).

Definition FVector_eq_dec (p q : FVector) : {p = q} + {p <> q}.
Proof.
  destruct p as [a b c], q as [a' b' c'].
  destruct (Req_dec_T a a') as [Ha | Ha];
    [ destruct (Req_dec_T b b') as [Hb | Hb];
      [ destruct (Req_dec_T c c') as [Hc | Hc] | ] | ].
  - left. subst. reflexivity.
  - right. intros E. injection E. intros. contradiction.
  - right. intros E. injection E. intros. contradiction.
  - right. intros E. injection E. intros. contradiction.
Defined.

(** ** Outcomes of a call: returned value with diagnostics, or a crash *)

Inductive Outcome (A : Type) : Type :=
| Returned (value : A) (signals : list string)
| Crashed.

Arguments Returned {A} value signals.
Arguments Crashed {A}.

Definition ret {A : Type} (a : A) : Outcome A := Returned a [].

Definition bind {A B : Type} (c : Outcome A) (k : A -> Outcome B) : Outcome B :=
  match c with
  | Returned a l1 =>
      match k a with
      | Returned b l2 => Returned b (l1 ++ l2)
      | Crashed => Crashed
      end
  | Crashed => Crashed
  end.

Notation "x <- c ;; k" := (bind c (fun x => k))
  (at level 61, c at next level, right associativity).

(** Modelled from the spec: [ensureMsgf] is an engine macro whose definition
    is missing.  It yields its condition and, when the condition is false,
    raises the diagnostic ("logged assertion") without stopping the
    program. *)
Definition ensureMsgf (cond : bool) (msg : string) : Outcome bool :=
  Returned cond (if cond then [] else [msg]).

(** Modelled from the spec: [TArray::Last] is an engine method whose
    definition is missing; the last element, a failed range check on an
    empty array. *)
Fixpoint Last {A : Type} (l : list A) : Outcome A :=
  match l with
  | [] => Crashed
  | [x] => ret x
  | _ :: rest => Last rest
  end.

Fixpoint mapM {A B : Type} (f : A -> Outcome B) (l : list A) : Outcome (list B) :=
  match l with
  | [] => ret []
  | a :: rest =>
      b <- f a ;;
      bs <- mapM f rest ;;
      ret (b :: bs)
  end.

(** ** The spline object (header, private section) *)

Record UCatmullRomSpline : Type := MakeSpline {
  PValues : list FVector;
  TValues : list R;
  DistanceLUT : list R;
  MaxT : R;
  TScale : R;
  LUTParameterScale : R;
  PathSegmentsLength : R;
  bValid : bool
}.

(** The constructor: [UCatmullRomSpline(): bValid(false) {}].  The arrays
    start empty; the scalar members are not initialised by the constructor
    and are taken as zero. *)
Definition NewSpline : UCatmullRomSpline :=
  MakeSpline [] [] [] 0 0 0 0 false.

Definition CurveNotValid : string := "Curve is not valid.".

(** [GetArcLength], from the header. *)
Definition GetArcLength (self : UCatmullRomSpline) : Outcome R :=
  ok <- ensureMsgf (bValid self) CurveNotValid ;;
  if negb ok then ret 0 else Last (DistanceLUT self).

(** ** Inputs used by the examples below *)

Definition OnXAxis (x : R) : FVector := MakeVector x 0 0.

(** The four collinear, evenly spaced control points of the design
    document's example. *)
Definition FourCollinear : list FVector :=
  [OnXAxis 0; OnXAxis 100; OnXAxis 200; OnXAxis 300].

(** A single straight unit segment. *)
Definition UnitSegment : list FVector := [OnXAxis 0; OnXAxis 1].

(** The degenerate inputs named by the design document. *)
Definition SinglePoint : list FVector := [MakeVector 5 5 5].
Definition TwiceOrigin : list FVector := [ZeroVector; ZeroVector].




(** Constants for the worked examples: 64 table increments and a
    near-zero threshold of 1/10000. *)
Definition ExampleResolution : nat := 64.
Definition ExampleNearZero : R := 1 / 10000.

(** ** Construction and sampling *)

Section Spline.

(** The number of parameter increments of the distance table and the
    threshold under which a knot difference counts as near zero are
    implementation constants that the design document leaves open. *)
Variable LUTResolution : nat.
Variable NearZero : R.

(** Modelled from the spec: part of the missing body of [GenerateSpline];
    "removing consecutive duplicates". *)
Fixpoint RemoveConsecutiveDuplicates (pts : list FVector) : list FVector :=
  match pts with
  | [] => []
  | p :: rest =>
      match rest with
      | [] => [p]
      | q :: _ =>
          if FVector_eq_dec p q
          then RemoveConsecutiveDuplicates rest
          else p :: RemoveConsecutiveDuplicates rest
      end
  end.

(** The centripetal exponent is 0.5: [d ^ Alpha] is the square root. *)
Definition PowAlpha (d : R) : R := sqrt d.

(** Modelled from the spec: part of the missing body of [GenerateSpline];
    [t[0] = 0] and [t[i] = t[i-1] + distance(points[i-1], points[i])^alpha],
    written as the loop that carries the previous point and knot. *)
Fixpoint KnotsFrom (t : R) (prev : FVector) (rest : list FVector) : list R :=
  match rest with
  | [] => []
  | p :: rest' =>
      let t' := t + PowAlpha (Dist prev p) in
      t' :: KnotsFrom t' p rest'
  end.

(** Modelled from the spec: part of the missing body of [GenerateSpline];
    one knot per point, the first one 0. *)
Definition KnotValues (pts : list FVector) : list R :=
  match pts with
  | [] => []
  | p :: rest => 0 :: KnotsFrom 0 p rest
  end.

(** Modelled from the spec: the phantom end points of the missing body of
    [GenerateSpline]; "extrapolated backward from the first real segment"
    and "extrapolated forward from the last real segment". *)
Definition Extrapolate (p q : FVector) : FVector := VSub (VScale 2 p) q.

(** Modelled from the spec: part of the missing body of [GenerateSpline];
    the stored points are the usable points between the leading and the
    trailing phantom. *)
Definition PadWithPhantoms (usable : list FVector) : list FVector :=
  let n := length usable in
  Extrapolate (nth 0 usable ZeroVector) (nth 1 usable ZeroVector)
    :: usable
    ++ [Extrapolate (nth (n - 1) usable ZeroVector) (nth (n - 2) usable ZeroVector)].

(** Modelled from the spec: "division by near-zero chord distances must be
    guarded (treat as zero contribution / skip)". *)
Definition GuardedRatio (num den : R) : R :=
  if Rle_dec (Rabs den) NearZero then 0 else num / den.

(** Modelled from the spec: one "linear interpolation" of the missing body
    of [SampleSplineByParameter], weighted by the knot differences. *)
Definition Blend (ta tb t : R) (A B : FVector) : FVector :=
  VAdd (VScale (GuardedRatio (tb - t) (tb - ta)) A)
       (VScale (GuardedRatio (t - ta) (tb - ta)) B).

(** Modelled from the spec: the four-point evaluation of the missing body
    of [SampleSplineByParameter], in the recursive (Barry-Goldman)
    formulation: three blends of the control points, two of those, one of
    those. *)
Definition CatmullRomSegment (P0 P1 P2 P3 : FVector) (t0 t1 t2 t3 t : R) : FVector :=
  let A1 := Blend t0 t1 t P0 P1 in
  let A2 := Blend t1 t2 t P1 P2 in
  let A3 := Blend t2 t3 t P2 P3 in
  let B1 := Blend t0 t2 t A1 A2 in
  let B2 := Blend t1 t3 t A2 A3 in
  Blend t1 t2 t B1 B2.

(** Modelled from the spec: [FMath::Clamp] is an engine function whose
    definition is missing; "clamps the effective parameter into the valid
    domain". *)
Definition Clamp (x lo hi : R) : R :=
  if Rlt_dec x lo then lo else if Rlt_dec hi x then hi else x.

(** Modelled from the spec: "locates the enclosing knot segment for the
    (descaled) parameter via a scan"; the scan starts at segment [i] and
    moves on while the next knot is not beyond [t], at most [steps]
    times. *)
Fixpoint ScanSegment (knots : list R) (t : R) (i steps : nat) : nat :=
  match steps with
  | O => i
  | S k => if Rle_dec (nth (i + 1) knots 0) t then ScanSegment knots t (S i) k else i
  end.

(** Modelled from the spec: the segment of the missing body of
    [SampleSplineByParameter].  The stored sequence of [n] knots begins
    and ends with a phantom; the nominal domain runs from "second point"
    to "second-to-last point" of the original input, which are the stored
    knots 2 and [n - 3], so the segments start at the knots 2 to
    [n - 4]. *)
Definition FindSegment (knots : list R) (t : R) : nat :=
  ScanSegment knots t 2 (length knots - 6).

(** Modelled from the spec: the missing body of [SampleSplineByParameter]
    on a valid spline: clamp, descale, locate the segment, evaluate.
    Parameter 0 is the knot of the second real point (stored index 2, after
    the leading phantom and the first real point).  The four control
    points read lie within the stored arrays from three usable points on.
    With two usable points the range of the header runs backwards and the
    read at [i + 2] falls outside the arrays; [nth] yields its default
    there, and no statement below depends on the value read there. *)
Definition EvaluateSpline (self : UCatmullRomSpline) (T : R) : FVector :=
  let P := PValues self in
  let K := TValues self in
  let t := nth 2 K 0 + Clamp T 0 1 * TScale self in
  let i := FindSegment K t in
  CatmullRomSegment
    (nth (i - 1) P ZeroVector) (nth i P ZeroVector)
    (nth (i + 1) P ZeroVector) (nth (i + 2) P ZeroVector)
    (nth (i - 1) K 0) (nth i K 0) (nth (i + 1) K 0) (nth (i + 2) K 0) t.

(** Modelled from the spec: the missing body of [SampleSplineByParameter];
    "if the spline is invalid, returns a fixed sentinel value (zero vector)
    and signals the precondition violation". *)
Definition SampleSplineByParameter (self : UCatmullRomSpline) (T : R) : Outcome FVector :=
  ok <- ensureMsgf (bValid self) CurveNotValid ;;
  if negb ok then ret ZeroVector else ret (EvaluateSpline self T).

(** Modelled from the spec: part of the missing body of [FillLUT]; the
    curve point at the k-th parameter increment. *)
Definition LUTSample (self : UCatmullRomSpline) (k : nat) : FVector :=
  EvaluateSpline self (INR k * LUTParameterScale self).

(** Modelled from the spec: the loop of the missing body of [FillLUT];
    "summing segment-to-segment straight-line distances between consecutive
    samples". *)
Fixpoint AccumulateLUT (self : UCatmullRomSpline) (k count : nat) (acc : R) : list R :=
  match count with
  | O => []
  | S c =>
      let acc' := acc + Dist (LUTSample self k) (LUTSample self (S k)) in
      acc' :: AccumulateLUT self (S k) c acc'
  end.

(** Modelled from the spec: the missing body of [FillLUT]; "walking the
    curve at fixed parameter increments", the table starts at 0 and ends at
    the total. *)
Definition FillLUT (self : UCatmullRomSpline) : UCatmullRomSpline :=
  MakeSpline (PValues self) (TValues self)
    (0 :: AccumulateLUT self 0 LUTResolution 0)
    (MaxT self) (TScale self) (LUTParameterScale self)
    (PathSegmentsLength self) (bValid self).

(** Modelled from the spec: the summed length of a polyline, recorded as
    [PathSegmentsLength] by [GenerateSpline]. *)
Fixpoint PolylineLength (pts : list FVector) : R :=
  match pts with
  | p :: (q :: _) as rest => Dist p q + PolylineLength rest
  | _ => 0
  end.

(** Modelled from the spec: part of the missing body of [GenerateSpline];
    "marks the spline invalid". *)
Definition Invalidate (self : UCatmullRomSpline) : UCatmullRomSpline :=
  MakeSpline (PValues self) (TValues self) (DistanceLUT self)
    (MaxT self) (TScale self) (LUTParameterScale self)
    (PathSegmentsLength self) false.

(** Modelled from the spec: the missing body of [GenerateSpline].  It fails
    and marks the spline invalid when fewer than two points remain after
    removing consecutive duplicates; otherwise it pads the points with the
    two phantom end points, assigns the centripetal knots, records
    [MaxT] as the knot of the last real point before the trailing phantom,
    marks the spline valid and fills the distance table.  [TScale] is the
    width of the nominal parameter domain, from the knot of the second real
    point to the knot of the second-to-last real point (spec 4.2 and the
    header comment on [SampleSplineByParameter]: [0,1] corresponds to
    PathPoints[1] -> PathPoints[n-2]).  The design document names
    [PathSegmentsLength] without defining it; it is recorded here as the
    length of the polyline through the real points, and no result below
    depends on it or on [MaxT]. *)
Definition GenerateSpline (self : UCatmullRomSpline) (PathPoints : list FVector)
  : bool * UCatmullRomSpline :=
  let usable := RemoveConsecutiveDuplicates PathPoints in
  if (length usable <? 2)%nat then (false, Invalidate self)
  else
    let P := PadWithPhantoms usable in
    let K := KnotValues P in
    let maxT := nth (length P - 2) K 0 in
    (true,
     FillLUT (MakeSpline P K [] maxT (nth (length P - 3) K 0 - nth 2 K 0)
                (/ INR LUTResolution) (PolylineLength usable) true)).

(** [MakeCatmullRomSpline], from the header: a fresh object, [nullptr]
    when construction fails. *)
Definition MakeCatmullRomSpline (PathPoints : list FVector) : option UCatmullRomSpline :=
  let (ok, CRSpline) := GenerateSpline NewSpline PathPoints in
  if ok then Some CRSpline else None.

(** Modelled from the spec: the search of the missing body of
    [FindParameterForDistance]; the first pair of consecutive table
    entries whose second entry lies beyond [d], and the position of [d]
    between them, counted in table steps. *)
Fixpoint BracketSearch (lut : list R) (i : nat) (d : R) : R :=
  match lut with
  | a :: rest =>
      match rest with
      | b :: _ =>
          if Rlt_dec d b then INR i + (d - a) / (b - a)
          else BracketSearch rest (S i) d
      | [] => INR i
      end
  | [] => INR i
  end.

(** Modelled from the spec: the missing body of [FindParameterForDistance];
    "distance <= 0 maps to parameter 0; distance >= total arclength maps to
    parameter 1; otherwise performs a search over the LUT for the
    bracketing pair and linearly interpolates". *)
Definition FindParameterForDistance (self : UCatmullRomSpline) (Distance : R) : Outcome R :=
  ok <- ensureMsgf (bValid self) CurveNotValid ;;
  if negb ok then ret 0
  else
    ArcLength <- GetArcLength self ;;
    if Rle_dec Distance 0 then ret 0
    else if Rle_dec ArcLength Distance then ret 1
    else ret (BracketSearch (DistanceLUT self) 0 Distance * LUTParameterScale self).

(** [SampleSplineByDistance], from the header. *)
Definition SampleSplineByDistance (self : UCatmullRomSpline) (Distance : R) : Outcome FVector :=
  T <- FindParameterForDistance self Distance ;;
  SampleSplineByParameter self T.

(** The composition that [SampleSplineByDistance] is said to be, written
    out on outcomes: the sample at the parameter found for the distance,
    with the diagnostics of the two calls in order. *)
Definition SampleSplineByDistance_composed
  (self : UCatmullRomSpline) (Distance : R) : Outcome FVector :=
  match FindParameterForDistance self Distance with
  | Returned T found =>
      match SampleSplineByParameter self T with
      | Returned P sampled => Returned P (found ++ sampled)
      | Crashed => Crashed
      end
  | Crashed => Crashed
  end.

Definition SampleLengthNotPositive : string := "Sample length is not positive.".

Definition IsPositive (x : R) : bool := if Rlt_dec 0 x then true else false.

(** Modelled from the spec: the walk of the missing body of
    [EquidistantSamples] as a loop with a step budget: the distances 0,
    [SampleLength], 2 x [SampleLength], ... while they stay below
    [ArcLength], and then [ArcLength] itself ("up to and including total
    arclength"); [None] when the budget runs out before the loop ends. *)
Fixpoint WalkDistances (budget : nat) (d ArcLength SampleLength : R)
  : option (list R) :=
  match budget with
  | O => None
  | S b =>
      if Rlt_dec d ArcLength
      then match WalkDistances b (d + SampleLength) ArcLength SampleLength with
           | Some ds => Some (d :: ds)
           | None => None
           end
      else Some [ArcLength]
  end.

(** Modelled from the spec: the whole number of steps of length
    [SampleLength] that fit in [ArcLength], floor(A/L). *)
Definition StepCount (ArcLength SampleLength : R) : nat :=
  Z.to_nat (Int_part (ArcLength / SampleLength)).

(** Modelled from the spec: the number of multiples of [SampleLength],
    counted from 0, that lie below [ArcLength]. *)
Definition StepsBelow (ArcLength SampleLength : R) : nat :=
  if Rlt_dec (INR (StepCount ArcLength SampleLength) * SampleLength) ArcLength
  then S (StepCount ArcLength SampleLength)
  else StepCount ArcLength SampleLength.

(** Modelled from the spec: the distances of the walk, listed by their
    count: the multiples of [SampleLength] below [ArcLength], then
    [ArcLength]. *)
Definition SampleDistances (ArcLength SampleLength : R) : list R :=
  map (fun k => INR k * SampleLength) (seq 0 (StepsBelow ArcLength SampleLength))
  ++ [ArcLength].

(** Modelled from the spec: the missing body of [EquidistantSamples];
    "walks distance 0, spacing, 2 x spacing, ... up to and including total
    arclength, converting each distance to a parameter and then to a
    position", "always includes the first and last curve points"; a
    spacing that is not positive "must fail explicitly (error result)
    rather than loop unboundedly".  The declared result type is an array,
    so the failure is the diagnostic with an empty array.  The distances
    walked are listed by their count; [WalkDistances] produces the same
    list as a loop (see [WalkDistances_whole_steps]). *)
Definition EquidistantSamples (self : UCatmullRomSpline) (SampleLength : R)
  : Outcome (list FVector) :=
  ok <- ensureMsgf (bValid self) CurveNotValid ;;
  if negb ok then ret []
  else
    positive <- ensureMsgf (IsPositive SampleLength) SampleLengthNotPositive ;;
    if negb positive then ret []
    else
      ArcLength <- GetArcLength self ;;
      mapM (SampleSplineByDistance self) (SampleDistances ArcLength SampleLength).

(** A spline is built when some call of [GenerateSpline] returned it with
    success. *)
Definition Built (s : UCatmullRomSpline) : Prop :=
  exists self PathPoints, GenerateSpline self PathPoints = (true, s).

(** All the points of an input coincide. *)
Definition AllCoincident (pts : list FVector) : Prop :=
  exists p, Forall (fun q => q = p) pts.

(** No two neighbours of a point sequence coincide. *)
Definition ConsecutiveDistinct (l : list FVector) : Prop :=
  forall i, (S i < length l)%nat -> nth i l ZeroVector <> nth (S i) l ZeroVector.

(** The parameter that [FindParameterForDistance] returns on a valid spline
    with a filled table, as a function of the distance. *)
Definition InverseLUT (self : UCatmullRomSpline) (Distance : R) : R :=
  if Rle_dec Distance 0 then 0
  else if Rle_dec (last (DistanceLUT self) 0) Distance then 1
  else BracketSearch (DistanceLUT self) 0 Distance * LUTParameterScale self.

(** The point at parameter [t] of the straight line through [a] with
    direction [v]. *)
Definition AffinePoint (a v : FVector) (t : R) : FVector := VAdd a (VScale t v).

(** Every stored point lies on one straight line, at the position given by
    its knot. *)
Definition AffineOnKnots (P : list FVector) (K : list R) (a v : FVector) : Prop :=
  length K = length P
  /\ forall j, (j < length P)%nat ->
       nth j P ZeroVector = AffinePoint a v (nth j K 0).

(** Every knot difference is positive and not near zero. *)
Definition WellSpaced (K : list R) : Prop :=
  forall j, (S j < length K)%nat ->
    NearZero < nth (S j) K 0 - nth j K 0 /\ 0 < nth (S j) K 0 - nth j K 0.

(** The object after a sequence of calls of [GenerateSpline], each made on
    the state that the call before it left. *)
Fixpoint GenerateSplines (self : UCatmullRomSpline) (calls : list (list FVector))
  : UCatmullRomSpline :=
  match calls with
  | [] => self
  | PathPoints :: rest => GenerateSplines (snd (GenerateSpline self PathPoints)) rest
  end.

(** ** The camera boom of the player character *)

(** The engine's rotator [FRotator(InPitch, InYaw, InRoll)], in degrees. *)
Record FRotator : Type := MakeRotator { Pitch : R; Yaw : R; Roll : R }.

(** [AGravityCharacterCharacter::LookUpAtRate], from
    GravityCharacterCharacter.cpp.  The call reads the relative rotation
    [Rot] of the camera boom and stores
    [FRotator(FMath::Clamp(Rot.Pitch + Rate * 5, -70, 70), 0, 0)] there; the
    function takes the rotation read to the rotation stored.  [Clamp] is
    the engine's [FMath::Clamp] of above.  The product and the sum are
    taken exactly: the rounding of the [float] product and of the sum is
    outside the model, so only what rounding to nearest preserves (the
    limits of the clamp, the zero yaw and roll, the order of the results)
    is stated about this function. *)
Definition LookUpAtRate (Rot : FRotator) (Rate : R) : FRotator :=
  MakeRotator (Clamp (Pitch Rot + Rate * 5) (-70) 70) 0 0.


(** ** Outcomes and diagnostics *)

Lemma last_cons_default {A : Type} (l : list A) (a b : A) :
  last (b :: l) a = last l b.
Proof.
  revert a b. induction l as [| c l IH]; intros a b; [reflexivity |].
  change (last (b :: c :: l) a) with (last (c :: l) a).
  rewrite (IH a c), (IH b c). reflexivity.
Qed.

Lemma Last_cons_last {A : Type} (a : A) (l : list A) : Last (a :: l) = ret (last l a).
Proof.
  revert a. induction l as [| b l IH]; intros a; [reflexivity |].
  change (Last (a :: b :: l)) with (Last (b :: l)).
  rewrite IH, last_cons_default. reflexivity.
Qed.

Lemma GetArcLength_valid (s : UCatmullRomSpline) (a : R) (l : list R) :
  bValid s = true -> DistanceLUT s = a :: l ->
  GetArcLength s = Returned (last l a) [].
Proof.
  intros Hv Hl. unfold GetArcLength. rewrite Hv, Hl, Last_cons_last. reflexivity.
Qed.

(** ** C2: sampling an invalid spline *)

(** C2.  On a spline in the invalid state (never built, or construction
    failed) every sampling operation returns its fixed sentinel together
    with the "Curve is not valid." diagnostic, and none of them crashes:
    [GetArcLength] and [FindParameterForDistance] return zero,
    [SampleSplineByParameter] and [SampleSplineByDistance] return the zero
    vector, [EquidistantSamples] returns no points. *)
Theorem invalid_spline_returns_sentinels (s : UCatmullRomSpline) :
  bValid s = false ->
  GetArcLength s = Returned 0 [CurveNotValid]
  /\ (forall T, SampleSplineByParameter s T = Returned ZeroVector [CurveNotValid])
  /\ (forall d, FindParameterForDistance s d = Returned 0 [CurveNotValid])
  /\ (forall d, SampleSplineByDistance s d
                = Returned ZeroVector [CurveNotValid; CurveNotValid])
  /\ (forall L, EquidistantSamples s L = Returned [] [CurveNotValid]).
Proof.
  intros Hv.
  assert (HF : forall d, FindParameterForDistance s d = Returned 0 [CurveNotValid]).
  { intros d. unfold FindParameterForDistance. rewrite Hv. reflexivity. }
  assert (HS : forall T, SampleSplineByParameter s T = Returned ZeroVector [CurveNotValid]).
  { intros T. unfold SampleSplineByParameter. rewrite Hv. reflexivity. }
  repeat split.
  - unfold GetArcLength. rewrite Hv. reflexivity.
  - exact HS.
  - exact HF.
  - intros d. unfold SampleSplineByDistance. rewrite HF. simpl. rewrite HS. reflexivity.
  - intros L. unfold EquidistantSamples. rewrite Hv. reflexivity.
Qed.

(** ** C10: sampling by distance *)

(** C10.  In every spline state and for every distance,
    [SampleSplineByDistance] is the composition of
    [FindParameterForDistance] with [SampleSplineByParameter]: it returns
    the sample at the parameter found, with the diagnostics of both calls,
    and crashes exactly when one of the two does. *)
Theorem SampleSplineByDistance_is_composition (s : UCatmullRomSpline) (d : R) :
  SampleSplineByDistance s d = SampleSplineByDistance_composed s d.
Proof.
  unfold SampleSplineByDistance, SampleSplineByDistance_composed, bind.
  destruct (FindParameterForDistance s d) as [T found |]; reflexivity.
Qed.

(** ** The sign of the spacing *)

Lemma IsPositive_false (L : R) : L <= 0 -> IsPositive L = false.
Proof.
  intros H. unfold IsPositive. destruct (Rlt_dec 0 L); [lra | reflexivity].
Qed.

Lemma IsPositive_true (L : R) : 0 < L -> IsPositive L = true.
Proof.
  intros H. unfold IsPositive. destruct (Rlt_dec 0 L); [reflexivity | lra].
Qed.

(** ** Removing consecutive duplicates *)

Lemma RemoveConsecutiveDuplicates_step (p q : FVector) (rest : list FVector) :
  RemoveConsecutiveDuplicates (p :: q :: rest)
  = if FVector_eq_dec p q
    then RemoveConsecutiveDuplicates (q :: rest)
    else p :: RemoveConsecutiveDuplicates (q :: rest).
Proof. reflexivity. Qed.

Lemma RemoveConsecutiveDuplicates_head (p : FVector) (rest : list FVector) :
  exists tl, RemoveConsecutiveDuplicates (p :: rest) = p :: tl.
Proof.
  revert p. induction rest as [| q rest IH]; intros p.
  - exists []. reflexivity.
  - rewrite RemoveConsecutiveDuplicates_step.
    destruct (FVector_eq_dec p q) as [E | E].
    + subst q. apply IH.
    + eexists. reflexivity.
Qed.

Lemma AllCoincident_tail (p : FVector) (rest : list FVector) :
  AllCoincident (p :: rest) -> AllCoincident rest.
Proof.
  intros [c H]. exists c. inversion H. assumption.
Qed.

Lemma RemoveConsecutiveDuplicates_coincident (pts : list FVector) :
  AllCoincident pts -> (length (RemoveConsecutiveDuplicates pts) <= 1)%nat.
Proof.
  induction pts as [| p rest IH]; intros Hc; [simpl; lia |].
  destruct rest as [| q rest]; [simpl; lia |].
  rewrite RemoveConsecutiveDuplicates_step.
  destruct (FVector_eq_dec p q) as [E | E].
  - apply IH. exact (AllCoincident_tail _ _ Hc).
  - exfalso. apply E. destruct Hc as [c H].
    inversion H as [| ? ? Hp H']. inversion H' as [| ? ? Hq ?]. congruence.
Qed.

Lemma RemoveConsecutiveDuplicates_distinct (pts : list FVector) :
  ~ AllCoincident pts -> (2 <= length (RemoveConsecutiveDuplicates pts))%nat.
Proof.
  induction pts as [| p rest IH]; intros Hn.
  - exfalso. apply Hn. exists ZeroVector. constructor.
  - destruct rest as [| q rest].
    + exfalso. apply Hn. exists p. constructor; [reflexivity | constructor].
    + rewrite RemoveConsecutiveDuplicates_step.
      destruct (FVector_eq_dec p q) as [E | E].
      * apply IH. intros [c H]. apply Hn. exists c.
        constructor; [| exact H]. inversion H. congruence.
      * destruct (RemoveConsecutiveDuplicates_head q rest) as [tl Htl].
        rewrite Htl. simpl. lia.
Qed.

Lemma RemoveConsecutiveDuplicates_short (pts : list FVector) :
  (length (RemoveConsecutiveDuplicates pts) <= length pts)%nat.
Proof.
  induction pts as [| p rest IH]; [simpl; lia |].
  destruct rest as [| q rest]; [simpl; lia |].
  rewrite RemoveConsecutiveDuplicates_step.
  destruct (FVector_eq_dec p q); simpl length in *; lia.
Qed.

(** ** C1: when construction succeeds *)

Lemma GenerateSpline_success (self : UCatmullRomSpline) (pts : list FVector) :
  (2 <= length (RemoveConsecutiveDuplicates pts))%nat ->
  GenerateSpline self pts
  = (true,
     let usable := RemoveConsecutiveDuplicates pts in
     let P := PadWithPhantoms usable in
     let K := KnotValues P in
     let maxT := nth (length P - 2) K 0 in
     FillLUT (MakeSpline P K [] maxT (nth (length P - 3) K 0 - nth 2 K 0)
                (/ INR LUTResolution) (PolylineLength usable) true)).
Proof.
  intros H. unfold GenerateSpline.
  destruct (Nat.ltb_spec (length (RemoveConsecutiveDuplicates pts)) 2); [lia | reflexivity].
Qed.

Lemma GenerateSpline_failure (self : UCatmullRomSpline) (pts : list FVector) :
  (length (RemoveConsecutiveDuplicates pts) < 2)%nat ->
  GenerateSpline self pts = (false, Invalidate self).
Proof.
  intros H. unfold GenerateSpline.
  destruct (Nat.ltb_spec (length (RemoveConsecutiveDuplicates pts)) 2); [reflexivity | lia].
Qed.

(** C1.  [GenerateSpline] returns true and leaves the spline marked valid
    whenever at least two points remain after removing consecutive
    duplicates, which is the case exactly when the input points do not all
    coincide; it returns false and leaves the spline marked invalid for
    every input of zero or one point and for every input whose points all
    coincide. *)
Theorem GenerateSpline_succeeds_iff_two_usable_points
  (self : UCatmullRomSpline) (pts : list FVector) :
  ((2 <= length (RemoveConsecutiveDuplicates pts))%nat ->
   fst (GenerateSpline self pts) = true
   /\ bValid (snd (GenerateSpline self pts)) = true)
  /\ (~ AllCoincident pts -> (2 <= length (RemoveConsecutiveDuplicates pts))%nat)
  /\ ((length pts <= 1)%nat \/ AllCoincident pts ->
      fst (GenerateSpline self pts) = false
      /\ bValid (snd (GenerateSpline self pts)) = false).
Proof.
  split; [| split].
  - intros H. rewrite (GenerateSpline_success self pts H). split; reflexivity.
  - apply RemoveConsecutiveDuplicates_distinct.
  - intros H.
    assert (Hs : (length (RemoveConsecutiveDuplicates pts) < 2)%nat).
    { destruct H as [H | H].
      - pose proof (RemoveConsecutiveDuplicates_short pts). lia.
      - pose proof (RemoveConsecutiveDuplicates_coincident pts H). lia. }
    rewrite (GenerateSpline_failure self pts Hs). split; reflexivity.
Qed.

Lemma MakeCatmullRomSpline_result (pts : list FVector) :
  MakeCatmullRomSpline pts
  = if (length (RemoveConsecutiveDuplicates pts) <? 2)%nat then None
    else Some (snd (GenerateSpline NewSpline pts)).
Proof.
  unfold MakeCatmullRomSpline, GenerateSpline.
  destruct (length (RemoveConsecutiveDuplicates pts) <? 2)%nat; reflexivity.
Qed.

(** ** Points and distances *)

Lemma SizeSquared_nonneg (p : FVector) : 0 <= SizeSquared p.
Proof. unfold SizeSquared. nra. Qed.

Lemma Dist_nonneg (p q : FVector) : 0 <= Dist p q.
Proof. apply sqrt_pos. Qed.

Lemma SizeSquared_zero (p : FVector) : SizeSquared p = 0 -> p = ZeroVector.
Proof.
  destruct p as [a b c]. unfold SizeSquared, ZeroVector. simpl. intros H.
  assert (a = 0) by nra. assert (b = 0) by nra. assert (c = 0) by nra.
  subst. reflexivity.
Qed.

Lemma Dist_pos (p q : FVector) : p <> q -> 0 < Dist p q.
Proof.
  intros Hne. unfold Dist, Size. apply sqrt_lt_R0.
  destruct (Rle_lt_or_eq_dec _ _ (SizeSquared_nonneg (VSub q p))) as [H | H];
    [exact H |].
  exfalso. apply Hne. symmetry in H. apply SizeSquared_zero in H.
  destruct p as [a b c], q as [a' b' c']. unfold VSub, ZeroVector in H.
  simpl in H. injection H. intros. f_equal; lra.
Qed.

Lemma Extrapolate_distinct (p q : FVector) : p <> q -> Extrapolate p q <> p.
Proof.
  intros Hne E. apply Hne. destruct p as [a b c], q as [a' b' c'].
  unfold Extrapolate, VSub, VScale in E. simpl in E. injection E. intros.
  f_equal; lra.
Qed.

Lemma PowAlpha_pos (d : R) : 0 < d -> 0 < PowAlpha d.
Proof. apply sqrt_lt_R0. Qed.


(** ** The stored control points *)

Lemma ConsecutiveDistinct_cons (p q : FVector) (l : list FVector) :
  p <> q -> ConsecutiveDistinct (q :: l) -> ConsecutiveDistinct (p :: q :: l).
Proof.
  intros Hne H i Hi. destruct i as [| i]; [exact Hne |].
  apply (H i). simpl in *. lia.
Qed.

Lemma RemoveConsecutiveDuplicates_ConsecutiveDistinct (pts : list FVector) :
  ConsecutiveDistinct (RemoveConsecutiveDuplicates pts).
Proof.
  induction pts as [| p rest IH].
  - intros i Hi. simpl in Hi. lia.
  - destruct rest as [| q rest].
    + intros i Hi. simpl in Hi. lia.
    + rewrite RemoveConsecutiveDuplicates_step.
      destruct (FVector_eq_dec p q) as [E | E]; [exact IH |].
      destruct (RemoveConsecutiveDuplicates_head q rest) as [tl Htl].
      rewrite Htl in *. apply ConsecutiveDistinct_cons; assumption.
Qed.

Lemma PadWithPhantoms_length (usable : list FVector) :
  length (PadWithPhantoms usable) = (length usable + 2)%nat.
Proof.
  unfold PadWithPhantoms. simpl. rewrite length_app. simpl. lia.
Qed.

Lemma PadWithPhantoms_inner (usable : list FVector) (i : nat) :
  (i < length usable)%nat ->
  nth (S i) (PadWithPhantoms usable) ZeroVector = nth i usable ZeroVector.
Proof.
  intros Hi. unfold PadWithPhantoms. simpl. apply app_nth1. exact Hi.
Qed.

Lemma PadWithPhantoms_first (usable : list FVector) :
  nth 0 (PadWithPhantoms usable) ZeroVector
  = Extrapolate (nth 0 usable ZeroVector) (nth 1 usable ZeroVector).
Proof. reflexivity. Qed.

Lemma PadWithPhantoms_final (usable : list FVector) :
  nth (S (length usable)) (PadWithPhantoms usable) ZeroVector
  = Extrapolate (nth (length usable - 1) usable ZeroVector)
                (nth (length usable - 2) usable ZeroVector).
Proof.
  unfold PadWithPhantoms. simpl. rewrite app_nth2 by lia.
  rewrite Nat.sub_diag. reflexivity.
Qed.

Lemma PadWithPhantoms_ConsecutiveDistinct (usable : list FVector) :
  (2 <= length usable)%nat -> ConsecutiveDistinct usable ->
  ConsecutiveDistinct (PadWithPhantoms usable).
Proof.
  intros Hlen Hd i Hi. rewrite PadWithPhantoms_length in Hi.
  destruct i as [| i].
  - rewrite PadWithPhantoms_first, PadWithPhantoms_inner by lia.
    apply Extrapolate_distinct. apply Hd. lia.
  - rewrite PadWithPhantoms_inner by lia.
    destruct (Nat.eq_dec (S i) (length usable)) as [E | E].
    + rewrite E, PadWithPhantoms_final.
      replace (length usable - 1)%nat with i by lia.
      intros Heq. symmetry in Heq. revert Heq. apply Extrapolate_distinct.
      replace (length usable - 2)%nat with (i - 1)%nat by lia.
      intros Heq. apply (Hd (i - 1)%nat); [lia |].
      replace (S (i - 1)) with i by lia. symmetry. exact Heq.
    + rewrite PadWithPhantoms_inner by lia. apply Hd. lia.
Qed.

(** ** The knots *)

Lemma KnotsFrom_length (rest : list FVector) (t : R) (prev : FVector) :
  length (KnotsFrom t prev rest) = length rest.
Proof.
  revert t prev. induction rest as [| p rest IH]; intros t prev; [reflexivity |].
  simpl. rewrite IH. reflexivity.
Qed.

Lemma KnotValues_length (pts : list FVector) :
  length (KnotValues pts) = length pts.
Proof.
  destruct pts as [| p rest]; [reflexivity |].
  simpl. rewrite KnotsFrom_length. reflexivity.
Qed.

Lemma KnotsFrom_step (rest : list FVector) (t : R) (prev : FVector) (i : nat) :
  (i < length rest)%nat ->
  nth (S i) (t :: KnotsFrom t prev rest) 0
  = nth i (t :: KnotsFrom t prev rest) 0
    + PowAlpha (Dist (nth i (prev :: rest) ZeroVector)
                     (nth (S i) (prev :: rest) ZeroVector)).
Proof.
  revert t prev i. induction rest as [| p rest IH]; intros t prev i Hi.
  - simpl in Hi. lia.
  - destruct i as [| i]; [reflexivity |].
    change (nth (S (S i)) (t :: KnotsFrom t prev (p :: rest)) 0)
      with (nth (S i) ((t + PowAlpha (Dist prev p))
                         :: KnotsFrom (t + PowAlpha (Dist prev p)) p rest) 0).
    change (nth (S i) (t :: KnotsFrom t prev (p :: rest)) 0)
      with (nth i ((t + PowAlpha (Dist prev p))
                     :: KnotsFrom (t + PowAlpha (Dist prev p)) p rest) 0).
    apply IH. simpl in Hi. lia.
Qed.

Lemma KnotValues_step (pts : list FVector) (i : nat) :
  (S i < length pts)%nat ->
  nth (S i) (KnotValues pts) 0
  = nth i (KnotValues pts) 0
    + PowAlpha (Dist (nth i pts ZeroVector) (nth (S i) pts ZeroVector)).
Proof.
  destruct pts as [| p rest]; intros Hi; [simpl in Hi; lia |].
  apply KnotsFrom_step. simpl in Hi. lia.
Qed.


Lemma KnotValues_increase (pts : list FVector) (i : nat) :
  ConsecutiveDistinct pts -> (S i < length pts)%nat ->
  nth i (KnotValues pts) 0 < nth (S i) (KnotValues pts) 0.
Proof.
  intros Hd Hi. rewrite (KnotValues_step pts i Hi).
  pose proof (PowAlpha_pos _ (Dist_pos _ _ (Hd i Hi))). lra.
Qed.

(** ** C8: the centripetal knots *)


(** ** The state after a successful construction *)

Lemma Built_shape (s : UCatmullRomSpline) :
  Built s ->
  exists pts,
    (2 <= length (RemoveConsecutiveDuplicates pts))%nat
    /\ s = FillLUT (MakeSpline
                      (PadWithPhantoms (RemoveConsecutiveDuplicates pts))
                      (KnotValues (PadWithPhantoms (RemoveConsecutiveDuplicates pts)))
                      []
                      (nth (length (PadWithPhantoms (RemoveConsecutiveDuplicates pts)) - 2)
                           (KnotValues (PadWithPhantoms (RemoveConsecutiveDuplicates pts))) 0)
                      (nth (length (PadWithPhantoms (RemoveConsecutiveDuplicates pts)) - 3)
                           (KnotValues (PadWithPhantoms (RemoveConsecutiveDuplicates pts))) 0
                       - nth 2 (KnotValues (PadWithPhantoms (RemoveConsecutiveDuplicates pts))) 0)
                      (/ INR LUTResolution)
                      (PolylineLength (RemoveConsecutiveDuplicates pts)) true).
Proof.
  intros [self [pts H]]. exists pts.
  destruct (Nat.lt_ge_cases (length (RemoveConsecutiveDuplicates pts)) 2) as [Hs | Hs].
  - rewrite (GenerateSpline_failure self pts Hs) in H. discriminate.
  - split; [exact Hs |].
    rewrite (GenerateSpline_success self pts Hs) in H.
    injection H. intros E. symmetry. exact E.
Qed.

Lemma Built_of_usable (self : UCatmullRomSpline) (pts : list FVector) :
  (2 <= length (RemoveConsecutiveDuplicates pts))%nat ->
  Built (snd (GenerateSpline self pts)).
Proof.
  intros H. exists self, pts. rewrite (GenerateSpline_success self pts H). reflexivity.
Qed.

Lemma AccumulateLUT_length (s : UCatmullRomSpline) (count k : nat) (acc : R) :
  length (AccumulateLUT s k count acc) = count.
Proof.
  revert k acc. induction count as [| c IH]; intros k acc; [reflexivity |].
  simpl. rewrite IH. reflexivity.
Qed.

Lemma AccumulateLUT_last_ge (s : UCatmullRomSpline) (count k : nat) (acc : R) :
  acc <= last (AccumulateLUT s k count acc) acc.
Proof.
  revert k acc. induction count as [| c IH]; intros k acc; [simpl; lra |].
  cbn [AccumulateLUT]. rewrite last_cons_default.
  pose proof (IH (S k) (acc + Dist (LUTSample s k) (LUTSample s (S k)))).
  pose proof (Dist_nonneg (LUTSample s k) (LUTSample s (S k))). lra.
Qed.

Lemma Built_valid (s : UCatmullRomSpline) : Built s -> bValid s = true.
Proof.
  intros H. destruct (Built_shape s H) as [pts [_ E]]. rewrite E. reflexivity.
Qed.

Lemma Built_table (s : UCatmullRomSpline) :
  Built s ->
  exists l, DistanceLUT s = 0 :: l /\ length l = LUTResolution /\ 0 <= last l 0
            /\ LUTParameterScale s = / INR LUTResolution.
Proof.
  intros H. destruct (Built_shape s H) as [pts [_ E]]. rewrite E.
  eexists. split; [reflexivity |]. split; [apply AccumulateLUT_length |].
  split; [apply AccumulateLUT_last_ge | reflexivity].
Qed.

Lemma GetArcLength_Built (s : UCatmullRomSpline) :
  Built s -> GetArcLength s = Returned (last (DistanceLUT s) 0) [].
Proof.
  intros H. destruct (Built_table s H) as [l [Hl _]].
  rewrite (GetArcLength_valid s 0 l (Built_valid s H) Hl), Hl, last_cons_default.
  reflexivity.
Qed.

Lemma FindParameterForDistance_Built (s : UCatmullRomSpline) (d : R) :
  Built s -> FindParameterForDistance s d = Returned (InverseLUT s d) [].
Proof.
  intros H. unfold FindParameterForDistance, InverseLUT.
  rewrite (Built_valid s H). cbn [ensureMsgf bind negb].
  rewrite (GetArcLength_Built s H). cbn [bind].
  destruct (Rle_dec d 0); [reflexivity |].
  destruct (Rle_dec (last (DistanceLUT s) 0) d); reflexivity.
Qed.

(** ** The search of the distance table *)

Lemma BracketSearch_step (a b : R) (rest : list R) (i : nat) (d : R) :
  BracketSearch (a :: b :: rest) i d
  = if Rlt_dec d b then INR i + (d - a) / (b - a)
    else BracketSearch (b :: rest) (S i) d.
Proof. reflexivity. Qed.

Lemma BracketSearch_range (lut : list R) (a : R) (i : nat) (d : R) :
  a <= d -> d < last lut a ->
  INR i <= BracketSearch (a :: lut) i d < INR i + INR (length lut).
Proof.
  revert a i. induction lut as [| b rest IH]; intros a i Ha Hd.
  - simpl in Hd. lra.
  - rewrite BracketSearch_step. destruct (Rlt_dec d b) as [Hb | Hb].
    + assert (Hba : 0 < b - a) by lra.
      assert (0 <= (d - a) / (b - a)).
      { apply Rmult_le_pos; [lra | left; apply Rinv_0_lt_compat; exact Hba]. }
      assert ((d - a) / (b - a) < 1).
      { apply (Rmult_lt_reg_r (b - a)); [exact Hba |].
        unfold Rdiv. rewrite Rmult_assoc, Rinv_l by lra. lra. }
      pose proof (pos_INR (length rest)) as Hn.
      change (length (b :: rest)) with (S (length rest)). rewrite S_INR. lra.
    + rewrite last_cons_default in Hd.
      assert (Hbd : b <= d) by lra.
      pose proof (IH b (S i) Hbd Hd) as [Hlo Hhi].
      change (length (b :: rest)) with (S (length rest)).
      rewrite (S_INR i) in Hlo, Hhi. rewrite (S_INR (length rest)). lra.
Qed.

Lemma BracketSearch_monotone (lut : list R) (a : R) (i : nat) (d1 d2 : R) :
  a <= d1 -> d1 <= d2 -> d2 < last lut a ->
  BracketSearch (a :: lut) i d1 <= BracketSearch (a :: lut) i d2.
Proof.
  revert a i. induction lut as [| b rest IH]; intros a i Ha H12 Hd.
  - simpl in Hd. lra.
  - rewrite !BracketSearch_step.
    destruct (Rlt_dec d1 b) as [H1 | H1]; destruct (Rlt_dec d2 b) as [H2 | H2].
    + assert (Hba : 0 < / (b - a)) by (apply Rinv_0_lt_compat; lra).
      unfold Rdiv. apply Rplus_le_compat_l.
      apply Rmult_le_compat_r; lra.
    + rewrite last_cons_default in Hd.
      assert (Hbd : b <= d2) by lra.
      pose proof (BracketSearch_range rest b (S i) d2 Hbd Hd) as [Hlo _].
      assert (Hba : 0 < b - a) by lra.
      assert ((d1 - a) / (b - a) < 1).
      { apply (Rmult_lt_reg_r (b - a)); [exact Hba |].
        unfold Rdiv. rewrite Rmult_assoc, Rinv_l by lra. lra. }
      rewrite S_INR in Hlo. lra.
    + lra.
    + rewrite last_cons_default in Hd. apply IH; lra.
Qed.

Lemma InverseLUT_range (s : UCatmullRomSpline) (d : R) :
  Built s -> 0 <= InverseLUT s d <= 1.
Proof.
  intros H. destruct (Built_table s H) as [l [Hl [Hlen [_ Hsc]]]].
  unfold InverseLUT. rewrite Hl, last_cons_default, Hsc.
  destruct (Rle_dec d 0) as [H0 | H0]; [lra |].
  destruct (Rle_dec (last l 0) d) as [HA | HA]; [lra |].
  assert (Hd0 : 0 <= d) by lra. assert (HdA : d < last l 0) by lra.
  pose proof (BracketSearch_range l 0 0 d Hd0 HdA) as [Hlo Hhi].
  rewrite Hlen in Hhi. simpl INR in Hlo, Hhi.
  assert (HN : 0 < INR LUTResolution) by lra.
  pose proof (Rinv_0_lt_compat _ HN) as Hinv.
  split; [apply Rmult_le_pos; lra |].
  apply (Rmult_le_reg_r (INR LUTResolution)); [exact HN |].
  rewrite Rmult_assoc, Rinv_l by lra. lra.
Qed.

Lemma InverseLUT_monotone (s : UCatmullRomSpline) (d1 d2 : R) :
  Built s -> d1 <= d2 -> InverseLUT s d1 <= InverseLUT s d2.
Proof.
  intros H H12. pose proof (InverseLUT_range s d1 H) as R1.
  pose proof (InverseLUT_range s d2 H) as R2. revert R1 R2.
  destruct (Built_table s H) as [l [Hl [Hlen [_ Hsc]]]].
  unfold InverseLUT. rewrite Hl, last_cons_default, Hsc.
  destruct (Rle_dec d1 0) as [H1 | H1]; destruct (Rle_dec d2 0) as [H2 | H2];
    try lra.
  destruct (Rle_dec (last l 0) d1) as [A1 | A1];
    destruct (Rle_dec (last l 0) d2) as [A2 | A2]; try lra.
  intros _ _.
  assert (HdA : d2 < last l 0) by lra. assert (Hd0 : 0 <= d1) by lra.
  pose proof (BracketSearch_monotone l 0 0 d1 d2 Hd0 H12 HdA) as Hm.
  assert (Hd2 : 0 <= d2) by lra.
  pose proof (BracketSearch_range l 0 0 d2 Hd2 HdA) as [_ Hhi].
  pose proof (BracketSearch_range l 0 0 d1 Hd0 ltac:(lra)) as [Hlo _].
  rewrite Hlen in Hhi. simpl INR in Hlo, Hhi.
  assert (HN : 0 < INR LUTResolution) by lra.
  pose proof (Rinv_0_lt_compat _ HN) as Hinv.
  apply Rmult_le_compat_r; lra.
Qed.

(** ** C4: clamping of the distance *)


(** ** C5: monotonicity of the inversion *)

(** C5.  On every built (valid) spline and for every two distances
    [d1 <= d2], the parameter returned for [d1] is at most the parameter
    returned for [d2]. *)
Theorem FindParameterForDistance_monotone (s : UCatmullRomSpline) (d1 d2 : R) :
  Built s -> d1 <= d2 ->
  exists T1 T2,
    FindParameterForDistance s d1 = Returned T1 []
    /\ FindParameterForDistance s d2 = Returned T2 []
    /\ T1 <= T2.
Proof.
  intros H H12. exists (InverseLUT s d1), (InverseLUT s d2).
  split; [apply FindParameterForDistance_Built; exact H |].
  split; [apply FindParameterForDistance_Built; exact H |].
  apply InverseLUT_monotone; assumption.
Qed.

(** ** Guarded blends *)

Lemma GuardedRatio_unguarded (num den : R) :
  NearZero < den -> 0 < den -> GuardedRatio num den = num / den.
Proof.
  intros He Hp. unfold GuardedRatio.
  destruct (Rle_dec (Rabs den) NearZero) as [H | H]; [| reflexivity].
  rewrite Rabs_right in H by lra. lra.
Qed.






Lemma Blend_same (ta tb t : R) (A : FVector) :
  NearZero < tb - ta -> 0 < tb - ta -> Blend ta tb t A A = A.
Proof.
  intros He Hp. unfold Blend.
  rewrite !(GuardedRatio_unguarded _ _ He Hp).
  destruct A as [a b c]. unfold VAdd, VScale. simpl. f_equal; field; lra.
Qed.



(** ** Locating the segment *)



Lemma Clamp_inside (x : R) : 0 <= x <= 1 -> Clamp x 0 1 = x.
Proof.
  intros H. unfold Clamp. destruct (Rlt_dec x 0); [lra |].
  destruct (Rlt_dec 1 x); [lra | reflexivity].
Qed.



Lemma ScanSegment_bounds (knots : list R) (t : R) (steps i : nat) :
  (i <= ScanSegment knots t i steps <= i + steps)%nat.
Proof.
  revert i. induction steps as [| k IH]; intros i; [simpl; lia |].
  simpl. destruct (Rle_dec (nth (i + 1) knots 0) t); [| lia].
  pose proof (IH (S i)). lia.
Qed.

Lemma KnotValues_monotone (pts : list FVector) (i j : nat) :
  ConsecutiveDistinct pts -> (i <= j)%nat -> (j < length pts)%nat ->
  nth i (KnotValues pts) 0 <= nth j (KnotValues pts) 0.
Proof.
  intros Hd Hij. induction Hij as [| j Hij IH]; intros Hj; [lra |].
  pose proof (KnotValues_increase pts j Hd Hj).
  assert (j < length pts)%nat by lia. specialize (IH H0). lra.
Qed.

Lemma last_as_nth {A : Type} (l : list A) (d : A) :
  nth (length l - 1) l d = last l d.
Proof.
  induction l as [| a l IH]; [reflexivity |].
  destruct l as [| b l]; [reflexivity |].
  change (last (a :: b :: l) d) with (last (b :: l) d). rewrite <- IH.
  simpl. rewrite Nat.sub_0_r. reflexivity.
Qed.

(** ** The ends of the usable range *)




Lemma SampleSplineByParameter_Built (s : UCatmullRomSpline) (T : R) :
  Built s -> SampleSplineByParameter s T = Returned (EvaluateSpline s T) [].
Proof.
  intros H. unfold SampleSplineByParameter. rewrite (Built_valid s H). reflexivity.
Qed.

(** ** C3: the ends of the parameter range *)


(** ** Walking the curve in steps *)

Lemma mapM_Returned {A B : Type} (f : A -> Outcome B) (g : A -> B) (l : list A) :
  (forall a, In a l -> f a = Returned (g a) []) ->
  mapM f l = Returned (map g l) [].
Proof.
  induction l as [| a l IH]; intros H; [reflexivity |].
  cbn [mapM map]. rewrite (H a (or_introl eq_refl)). cbn [bind].
  rewrite IH by (intros b Hb; apply H; right; exact Hb). reflexivity.
Qed.

Lemma SampleSplineByDistance_Built (s : UCatmullRomSpline) (d : R) :
  Built s ->
  SampleSplineByDistance s d = Returned (EvaluateSpline s (InverseLUT s d)) [].
Proof.
  intros H. unfold SampleSplineByDistance.
  rewrite (FindParameterForDistance_Built s d H). cbn [bind].
  rewrite (SampleSplineByParameter_Built s _ H). reflexivity.
Qed.

Lemma EquidistantSamples_Built (s : UCatmullRomSpline) (L : R) :
  Built s -> 0 < L ->
  EquidistantSamples s L
  = Returned (map (fun d => EvaluateSpline s (InverseLUT s d))
                  (SampleDistances (last (DistanceLUT s) 0) L)) [].
Proof.
  intros H HL. unfold EquidistantSamples.
  rewrite (Built_valid s H). cbn [ensureMsgf bind negb].
  rewrite (IsPositive_true L HL). cbn [bind negb].
  rewrite (GetArcLength_Built s H). cbn [bind].
  rewrite (mapM_Returned _ (fun d => EvaluateSpline s (InverseLUT s d))).
  - reflexivity.
  - intros d _. apply SampleSplineByDistance_Built. exact H.
Qed.

Lemma StepCount_floor (A L : R) :
  0 <= A -> 0 < L ->
  INR (StepCount A L) <= A / L < INR (StepCount A L) + 1.
Proof.
  intros HA HL. unfold StepCount.
  assert (Hq : 0 <= A / L).
  { apply Rmult_le_pos; [exact HA | left; apply Rinv_0_lt_compat; exact HL]. }
  destruct (base_Int_part (A / L)) as [Hlo Hhi].
  assert (Hz : (0 <= Int_part (A / L))%Z).
  { assert (IZR (-1) < IZR (Int_part (A / L))) by (simpl; lra).
    apply lt_IZR in H. lia. }
  rewrite INR_IZR_INZ, Z2Nat.id by exact Hz. lra.
Qed.

Lemma StepCount_whole (m : nat) (L : R) :
  0 < L -> StepCount (INR m * L) L = m.
Proof.
  intros HL. unfold StepCount.
  replace (INR m * L / L) with (INR m) by (field; lra).
  rewrite Int_part_INR. apply Nat2Z.id.
Qed.

Lemma StepCount_bounds (A L : R) :
  0 <= A -> 0 < L ->
  INR (StepCount A L) * L <= A < (INR (StepCount A L) + 1) * L.
Proof.
  intros HA HL. destruct (StepCount_floor A L HA HL) as [Hlo Hhi].
  apply (Rmult_le_compat_r L) in Hlo; [| lra].
  apply (Rmult_lt_compat_r L) in Hhi; [| exact HL].
  replace (A / L * L) with A in Hlo, Hhi by (field; lra). lra.
Qed.

Lemma StepsBelow_whole (A L : R) :
  A = INR (StepCount A L) * L -> StepsBelow A L = StepCount A L.
Proof.
  intros E. unfold StepsBelow.
  destruct (Rlt_dec (INR (StepCount A L) * L) A); [lra | reflexivity].
Qed.

Lemma StepsBelow_partial (A L : R) :
  0 <= A -> 0 < L -> A <> INR (StepCount A L) * L ->
  StepsBelow A L = S (StepCount A L).
Proof.
  intros HA HL E. unfold StepsBelow.
  destruct (StepCount_bounds A L HA HL) as [Hlo _].
  destruct (Rlt_dec (INR (StepCount A L) * L) A); [reflexivity | lra].
Qed.

Lemma StepsBelow_spec (A L : R) :
  0 <= A -> 0 < L ->
  (forall j, (j < StepsBelow A L)%nat -> INR j * L < A)
  /\ A <= INR (StepsBelow A L) * L.
Proof.
  intros HA HL. destruct (StepCount_bounds A L HA HL) as [Hlo Hhi].
  unfold StepsBelow.
  destruct (Rlt_dec (INR (StepCount A L) * L) A) as [Hlt | Hge].
  - split.
    + intros j Hj. assert (Hj' : INR j <= INR (StepCount A L)) by (apply le_INR; lia).
      apply (Rmult_le_compat_r L) in Hj'; lra.
    + rewrite S_INR. lra.
  - split.
    + intros j Hj. assert (Hj' : INR (S j) <= INR (StepCount A L)) by (apply le_INR; lia).
      rewrite S_INR in Hj'. apply (Rmult_le_compat_r L) in Hj'; [| lra]. lra.
    + lra.
Qed.

Lemma SampleDistances_length (A L : R) :
  length (SampleDistances A L) = S (StepsBelow A L).
Proof.
  unfold SampleDistances. rewrite length_app, length_map, length_seq. simpl. lia.
Qed.

Lemma SampleDistances_inner (A L : R) (k : nat) :
  (k < StepsBelow A L)%nat -> nth k (SampleDistances A L) 0 = INR k * L.
Proof.
  intros Hk. unfold SampleDistances.
  rewrite app_nth1 by (rewrite length_map, length_seq; exact Hk).
  rewrite (nth_indep _ 0 (INR 0 * L)) by (rewrite length_map, length_seq; exact Hk).
  rewrite (map_nth (fun j => INR j * L)), seq_nth by exact Hk. reflexivity.
Qed.

Lemma SampleDistances_final (A L : R) :
  nth (StepsBelow A L) (SampleDistances A L) 0 = A.
Proof.
  unfold SampleDistances.
  rewrite app_nth2 by (rewrite length_map, length_seq; lia).
  rewrite length_map, length_seq, Nat.sub_diag. reflexivity.
Qed.

(** ** The walk as a loop *)

Lemma WalkDistances_ends (A L : R) (n k : nat) :
  0 < L ->
  (forall j, (k <= j < k + n)%nat -> INR j * L < A) ->
  A <= INR (k + n) * L ->
  WalkDistances (S n) (INR k * L) A L
  = Some (map (fun j => INR j * L) (seq k n) ++ [A]).
Proof.
  intros HL. revert k. induction n as [| n IH]; intros k Hin Hout.
  - rewrite Nat.add_0_r in Hout. cbn [WalkDistances seq map app].
    destruct (Rlt_dec (INR k * L) A); [lra | reflexivity].
  - cbn [seq map app]. change (WalkDistances (S (S n)) (INR k * L) A L)
      with (if Rlt_dec (INR k * L) A
            then match WalkDistances (S n) (INR k * L + L) A L with
                 | Some ds => Some (INR k * L :: ds)
                 | None => None
                 end
            else Some [A]).
    destruct (Rlt_dec (INR k * L) A) as [_ | Hn];
      [| exfalso; apply Hn; apply Hin; lia].
    replace (INR k * L + L) with (INR (S k) * L) by (rewrite S_INR; ring).
    rewrite IH; [reflexivity | intros j Hj; apply Hin; lia |].
    replace (S k + n)%nat with (k + S n)%nat by lia. exact Hout.
Qed.

Lemma WalkDistances_whole_steps (A L : R) :
  0 <= A -> 0 < L ->
  WalkDistances (S (StepsBelow A L)) 0 A L = Some (SampleDistances A L).
Proof.
  intros HA HL. destruct (StepsBelow_spec A L HA HL) as [Hin Hout].
  replace 0 with (INR 0 * L) at 1 by (simpl; ring).
  apply WalkDistances_ends; [exact HL | |].
  - intros j Hj. apply Hin. lia.
  - exact Hout.
Qed.

Lemma WalkDistances_never_ends (A L : R) (budget : nat) (d : R) :
  L <= 0 -> d < A -> WalkDistances budget d A L = None.
Proof.
  intros HL. revert d. induction budget as [| b IH]; intros d Hd; [reflexivity |].
  cbn [WalkDistances]. destruct (Rlt_dec d A); [| lra].
  rewrite IH by lra. reflexivity.
Qed.

(** ** Control points on a straight line *)

Lemma Blend_affine (a v : FVector) (ta tb t : R) :
  NearZero < tb - ta -> 0 < tb - ta ->
  Blend ta tb t (AffinePoint a v ta) (AffinePoint a v tb) = AffinePoint a v t.
Proof.
  intros He Hp. unfold Blend.
  rewrite !(GuardedRatio_unguarded _ _ He Hp).
  destruct a as [a1 a2 a3], v as [v1 v2 v3].
  unfold AffinePoint, VAdd, VScale. simpl. f_equal; field; lra.
Qed.

Lemma CatmullRomSegment_affine (a v : FVector) (t0 t1 t2 t3 t : R) :
  NearZero < t1 - t0 -> 0 < t1 - t0 ->
  NearZero < t2 - t1 -> 0 < t2 - t1 ->
  NearZero < t3 - t2 -> 0 < t3 - t2 ->
  CatmullRomSegment (AffinePoint a v t0) (AffinePoint a v t1)
                    (AffinePoint a v t2) (AffinePoint a v t3) t0 t1 t2 t3 t
  = AffinePoint a v t.
Proof.
  intros He01 Hp01 He12 Hp12 He23 Hp23. unfold CatmullRomSegment.
  rewrite (Blend_affine a v t0 t1 t He01 Hp01).
  rewrite (Blend_affine a v t1 t2 t He12 Hp12).
  rewrite (Blend_affine a v t2 t3 t He23 Hp23).
  rewrite (Blend_same t0 t2 t) by lra.
  rewrite (Blend_same t1 t3 t) by lra.
  apply Blend_same; assumption.
Qed.

Lemma EvaluateSpline_affine (s : UCatmullRomSpline) (a v : FVector) (T : R) :
  AffineOnKnots (PValues s) (TValues s) a v -> WellSpaced (TValues s) ->
  (6 <= length (TValues s))%nat ->
  EvaluateSpline s T
  = AffinePoint a v (nth 2 (TValues s) 0 + Clamp T 0 1 * TScale s).
Proof.
  intros [Hlen Hon] Hsp H6. unfold EvaluateSpline.
  set (t := nth 2 (TValues s) 0 + Clamp T 0 1 * TScale s).
  pose proof (ScanSegment_bounds (TValues s) t (length (TValues s) - 6) 2) as Hb.
  fold (FindSegment (TValues s) t) in Hb.
  destruct (FindSegment (TValues s) t) as [| i]; [lia |].
  replace (S i - 1)%nat with i by lia.
  replace (S i + 1)%nat with (S (S i)) by lia.
  replace (S i + 2)%nat with (S (S (S i))) by lia.
  rewrite !Hon by lia.
  destruct (Hsp i) as [He01 Hp01]; [lia |].
  destruct (Hsp (S i)) as [He12 Hp12]; [lia |].
  destruct (Hsp (S (S i))) as [He23 Hp23]; [lia |].
  apply CatmullRomSegment_affine; assumption.
Qed.

Lemma Dist_affine (a v : FVector) (x y : R) :
  Dist (AffinePoint a v x) (AffinePoint a v y) = Rabs (y - x) * Size v.
Proof.
  unfold Dist, Size.
  replace (SizeSquared (VSub (AffinePoint a v y) (AffinePoint a v x)))
    with ((y - x)² * SizeSquared v).
  - rewrite sqrt_mult; [| apply Rle_0_sqr | apply SizeSquared_nonneg].
    rewrite sqrt_Rsqr_abs. reflexivity.
  - destruct a as [a1 a2 a3], v as [v1 v2 v3].
    unfold SizeSquared, VSub, AffinePoint, VAdd, VScale, Rsqr. simpl. ring.
Qed.

Lemma LUTSample_step_affine (s : UCatmullRomSpline) (a v : FVector) (k : nat) :
  AffineOnKnots (PValues s) (TValues s) a v -> WellSpaced (TValues s) ->
  (6 <= length (TValues s))%nat ->
  (0 < LUTResolution)%nat -> LUTParameterScale s = / INR LUTResolution ->
  0 <= TScale s -> (S k <= LUTResolution)%nat ->
  Dist (LUTSample s k) (LUTSample s (S k))
  = TScale s * Size v / INR LUTResolution.
Proof.
  intros Hon Hsp H4 HN Hsc Hts Hk. unfold LUTSample.
  rewrite !(EvaluateSpline_affine s a v _ Hon Hsp H4), Dist_affine, Hsc.
  assert (HNr : 0 < INR LUTResolution) by (apply lt_0_INR; exact HN).
  assert (Hkr : INR (S k) <= INR LUTResolution) by (apply le_INR; exact Hk).
  pose proof (pos_INR k) as Hk0. rewrite S_INR in *.
  assert (Hinv : 0 < / INR LUTResolution) by (apply Rinv_0_lt_compat; exact HNr).
  assert (Hone : INR LUTResolution * / INR LUTResolution = 1) by (apply Rinv_r; lra).
  rewrite !Clamp_inside.
  - replace (nth 2 (TValues s) 0 + (INR k + 1) * / INR LUTResolution * TScale s
             - (nth 2 (TValues s) 0 + INR k * / INR LUTResolution * TScale s))
      with (TScale s * / INR LUTResolution) by ring.
    rewrite Rabs_right; [unfold Rdiv; ring |].
    apply Rle_ge. apply Rmult_le_pos; lra.
  - split; [apply Rmult_le_pos; lra |].
    rewrite <- Hone. apply Rmult_le_compat_r; lra.
  - split; [apply Rmult_le_pos; lra |].
    rewrite <- Hone. apply Rmult_le_compat_r; lra.
Qed.

Lemma AccumulateLUT_affine (s : UCatmullRomSpline) (a v : FVector) :
  AffineOnKnots (PValues s) (TValues s) a v -> WellSpaced (TValues s) ->
  (6 <= length (TValues s))%nat ->
  (0 < LUTResolution)%nat -> LUTParameterScale s = / INR LUTResolution ->
  0 <= TScale s ->
  forall count k acc, (k + count <= LUTResolution)%nat ->
    last (AccumulateLUT s k count acc) acc
    = acc + INR count * (TScale s * Size v / INR LUTResolution).
Proof.
  intros Hon Hsp H4 HN Hsc Hts.
  induction count as [| c IH]; intros k acc Hk; [simpl; ring |].
  cbn [AccumulateLUT]. rewrite last_cons_default, IH by lia.
  rewrite (LUTSample_step_affine s a v k Hon Hsp H4 HN Hsc Hts) by lia.
  rewrite S_INR. ring.
Qed.

Lemma GetArcLength_affine (s : UCatmullRomSpline) (a v : FVector) :
  AffineOnKnots (PValues s) (TValues s) a v -> WellSpaced (TValues s) ->
  (6 <= length (TValues s))%nat ->
  (0 < LUTResolution)%nat -> LUTParameterScale s = / INR LUTResolution ->
  0 <= TScale s -> bValid s = true ->
  GetArcLength (FillLUT s) = Returned (TScale s * Size v) [].
Proof.
  intros Hon Hsp H4 HN Hsc Hts Hv.
  rewrite (GetArcLength_valid (FillLUT s) 0 (AccumulateLUT s 0 LUTResolution 0))
    by (try reflexivity; exact Hv).
  rewrite (AccumulateLUT_affine s a v Hon Hsp H4 HN Hsc Hts) by lia.
  assert (HNr : 0 < INR LUTResolution) by (apply lt_0_INR; exact HN).
  f_equal. field. lra.
Qed.

Lemma GetArcLength_line (self : UCatmullRomSpline) (pts : list FVector) (a v : FVector) :
  (4 <= length (RemoveConsecutiveDuplicates pts))%nat ->
  AffineOnKnots (PadWithPhantoms (RemoveConsecutiveDuplicates pts))
                (KnotValues (PadWithPhantoms (RemoveConsecutiveDuplicates pts))) a v ->
  WellSpaced (KnotValues (PadWithPhantoms (RemoveConsecutiveDuplicates pts))) ->
  (0 < LUTResolution)%nat ->
  GetArcLength (snd (GenerateSpline self pts))
  = Returned
      ((nth (length (PadWithPhantoms (RemoveConsecutiveDuplicates pts)) - 3)
            (KnotValues (PadWithPhantoms (RemoveConsecutiveDuplicates pts))) 0
        - nth 2 (KnotValues (PadWithPhantoms (RemoveConsecutiveDuplicates pts))) 0)
       * Size v) [].
Proof.
  intros Hlen4 Hon Hsp HN.
  assert (Hlen : (2 <= length (RemoveConsecutiveDuplicates pts))%nat) by lia.
  rewrite (GenerateSpline_success self pts Hlen).
  cbn [snd].
  set (U := RemoveConsecutiveDuplicates pts) in *.
  set (P := PadWithPhantoms U) in *. set (K := KnotValues P) in *.
  assert (HP : ConsecutiveDistinct P).
  { apply PadWithPhantoms_ConsecutiveDistinct;
      [exact Hlen | apply RemoveConsecutiveDuplicates_ConsecutiveDistinct]. }
  assert (HlenP : length P = (length U + 2)%nat) by apply PadWithPhantoms_length.
  assert (HlenK : length K = length P) by apply KnotValues_length.
  apply (GetArcLength_affine
           (MakeSpline P K [] (nth (length P - 2) K 0)
                       (nth (length P - 3) K 0 - nth 2 K 0)
                       (/ INR LUTResolution) (PolylineLength U) true) a v);
    cbn [PValues TValues TScale LUTParameterScale bValid];
    try assumption; try reflexivity; try lia.
  assert (nth 2 K 0 <= nth (length P - 3) K 0)
    by (apply KnotValues_monotone; [exact HP | lia | lia]).
  lra.
Qed.

(** ** Sampling by distance along a straight line *)

Lemma BracketSearch_affine (s : UCatmullRomSpline) (a v : FVector) :
  AffineOnKnots (PValues s) (TValues s) a v -> WellSpaced (TValues s) ->
  (6 <= length (TValues s))%nat ->
  (0 < LUTResolution)%nat -> LUTParameterScale s = / INR LUTResolution ->
  0 <= TScale s -> 0 < TScale s * Size v / INR LUTResolution ->
  forall count k acc i d, (k + count <= LUTResolution)%nat ->
    acc <= d ->
    d < acc + INR count * (TScale s * Size v / INR LUTResolution) ->
    BracketSearch (acc :: AccumulateLUT s k count acc) i d
    = INR i + (d - acc) / (TScale s * Size v / INR LUTResolution).
Proof.
  intros Hon Hsp H4 HN Hsc Hts Hdelta.
  set (delta := TScale s * Size v / INR LUTResolution) in *.
  induction count as [| c IH]; intros k acc i d Hk Hlo Hhi.
  - simpl in Hhi. lra.
  - cbn [AccumulateLUT]. rewrite BracketSearch_step.
    rewrite (LUTSample_step_affine s a v k Hon Hsp H4 HN Hsc Hts) by lia.
    fold delta.
    destruct (Rlt_dec d (acc + delta)) as [Hd | Hd].
    + f_equal. f_equal. ring.
    + rewrite IH; [rewrite S_INR; field; lra | lia | lra |].
      rewrite S_INR in Hhi. lra.
Qed.

Lemma InverseLUT_affine (s : UCatmullRomSpline) (a v : FVector) (d : R) :
  AffineOnKnots (PValues s) (TValues s) a v -> WellSpaced (TValues s) ->
  (6 <= length (TValues s))%nat ->
  (0 < LUTResolution)%nat -> LUTParameterScale s = / INR LUTResolution ->
  0 < TScale s -> 0 < Size v ->
  0 <= d <= TScale s * Size v ->
  InverseLUT (FillLUT s) d = d / (TScale s * Size v).
Proof.
  intros Hon Hsp H4 HN Hsc Hts Hv Hd.
  assert (HNr : 0 < INR LUTResolution) by (apply lt_0_INR; exact HN).
  assert (HA : 0 < TScale s * Size v) by (apply Rmult_lt_0_compat; assumption).
  assert (Hdelta : 0 < TScale s * Size v / INR LUTResolution).
  { apply Rmult_lt_0_compat; [exact HA | apply Rinv_0_lt_compat; exact HNr]. }
  assert (Hts' : 0 <= TScale s) by lra.
  unfold InverseLUT. cbn [DistanceLUT LUTParameterScale FillLUT].
  rewrite last_cons_default.
  rewrite (AccumulateLUT_affine s a v Hon Hsp H4 HN Hsc Hts') by lia.
  replace (0 + INR LUTResolution * (TScale s * Size v / INR LUTResolution))
    with (TScale s * Size v) by (field; lra).
  destruct (Rle_dec d 0) as [H0 | H0].
  - replace d with 0 by lra. unfold Rdiv. ring.
  - destruct (Rle_dec (TScale s * Size v) d) as [H1 | H1].
    + replace d with (TScale s * Size v) by lra. field. lra.
    + rewrite (BracketSearch_affine s a v Hon Hsp H4 HN Hsc Hts' Hdelta) by
        (try lia; try lra;
         replace (0 + INR LUTResolution * (TScale s * Size v / INR LUTResolution))
           with (TScale s * Size v) by (field; lra); lra).
      rewrite Hsc. simpl INR. field. lra.
Qed.

Lemma AffineOnKnots_direction (P : list FVector) (K : list R) (a v : FVector) :
  AffineOnKnots P K a v -> ConsecutiveDistinct P -> (2 <= length P)%nat ->
  0 < Size v.
Proof.
  intros [_ Hon] Hd Hlen. unfold Size. apply sqrt_lt_R0.
  destruct (Rle_lt_or_eq_dec _ _ (SizeSquared_nonneg v)) as [H | H]; [exact H |].
  exfalso. apply (Hd 0%nat); [lia |].
  rewrite !Hon by lia. symmetry in H. apply SizeSquared_zero in H. subst v.
  destruct a as [a1 a2 a3]. unfold AffinePoint, VAdd, VScale, ZeroVector. simpl.
  f_equal; ring.
Qed.

Lemma Built_on_line (s : UCatmullRomSpline) (a v : FVector) :
  Built s -> (6 <= length (PValues s))%nat ->
  AffineOnKnots (PValues s) (TValues s) a v -> WellSpaced (TValues s) ->
  (0 < LUTResolution)%nat ->
  0 < Size v
  /\ forall d, 0 <= d <= last (DistanceLUT s) 0 ->
       EvaluateSpline s (InverseLUT s d)
       = AffinePoint a v (nth 2 (TValues s) 0 + d / Size v).
Proof.
  intros HB H6 Hon Hsp HN.
  destruct (Built_shape s HB) as [pts [Hlen E]].
  set (U := RemoveConsecutiveDuplicates pts) in *.
  set (P := PadWithPhantoms U) in *. set (K := KnotValues P) in *.
  set (s0 := MakeSpline P K [] (nth (length P - 2) K 0)
               (nth (length P - 3) K 0 - nth 2 K 0)
               (/ INR LUTResolution) (PolylineLength U) true) in *.
  assert (HP : ConsecutiveDistinct P).
  { apply PadWithPhantoms_ConsecutiveDistinct;
      [exact Hlen | apply RemoveConsecutiveDuplicates_ConsecutiveDistinct]. }
  assert (HlenP : length P = (length U + 2)%nat) by apply PadWithPhantoms_length.
  assert (HlenK : length K = length P) by apply KnotValues_length.
  subst s. cbn [PValues TValues FillLUT] in Hon, Hsp.
  change (6 <= length P)%nat in H6.
  assert (Hon0 : AffineOnKnots (PValues s0) (TValues s0) a v) by exact Hon.
  assert (Hsp0 : WellSpaced (TValues s0)) by exact Hsp.
  assert (H4 : (6 <= length (TValues s0))%nat) by (cbn [TValues s0]; lia).
  assert (Hsc : LUTParameterScale s0 = / INR LUTResolution) by reflexivity.
  assert (Hts : 0 < TScale s0).
  { cbn [TScale s0].
    assert (nth 2 K 0 < nth 3 K 0) by (apply KnotValues_increase; [exact HP | lia]).
    assert (nth 3 K 0 <= nth (length P - 3) K 0)
      by (apply KnotValues_monotone; [exact HP | lia | lia]).
    lra. }
  assert (Hv : 0 < Size v)
    by (apply (AffineOnKnots_direction P K a v Hon HP); lia).
  split; [exact Hv |].
  assert (HA : last (DistanceLUT (FillLUT s0)) 0 = TScale s0 * Size v).
  { cbn [DistanceLUT FillLUT]. rewrite last_cons_default.
    rewrite (AccumulateLUT_affine s0 a v Hon0 Hsp0 H4 HN Hsc) by (try lia; lra).
    assert (0 < INR LUTResolution) by (apply lt_0_INR; exact HN).
    field. lra. }
  rewrite HA. intros d Hd.
  assert (HApos : 0 < TScale s0 * Size v) by (apply Rmult_lt_0_compat; assumption).
  rewrite (InverseLUT_affine s0 a v _ Hon0 Hsp0 H4 HN Hsc Hts Hv) by lra.
  change (EvaluateSpline (FillLUT s0)) with (EvaluateSpline s0).
  rewrite (EvaluateSpline_affine s0 a v _ Hon0 Hsp0 H4).
  rewrite Clamp_inside.
  - cbn [TValues FillLUT]. f_equal. field. lra.
  - pose proof (Rinv_0_lt_compat _ HApos) as Hinv. split.
    + apply Rmult_le_pos; lra.
    + apply (Rmult_le_reg_r (TScale s0 * Size v)); [exact HApos |].
      unfold Rdiv. rewrite Rmult_assoc, Rinv_l by lra. lra.
Qed.

Lemma Built_on_line_spacing (s : UCatmullRomSpline) (a v : FVector) (d1 d2 : R) :
  Built s -> (6 <= length (PValues s))%nat ->
  AffineOnKnots (PValues s) (TValues s) a v -> WellSpaced (TValues s) ->
  (0 < LUTResolution)%nat ->
  0 <= d1 -> d1 <= d2 -> d2 <= last (DistanceLUT s) 0 ->
  Dist (EvaluateSpline s (InverseLUT s d1)) (EvaluateSpline s (InverseLUT s d2))
  = d2 - d1.
Proof.
  intros HB H6 Hon Hsp HN H1 H12 H2.
  destruct (Built_on_line s a v HB H6 Hon Hsp HN) as [Hv Hpos].
  rewrite !Hpos by lra. rewrite Dist_affine.
  replace (nth 2 (TValues s) 0 + d2 / Size v - (nth 2 (TValues s) 0 + d1 / Size v))
    with ((d2 - d1) / Size v) by (field; lra).
  rewrite Rabs_right.
  - field. lra.
  - apply Rle_ge. apply Rmult_le_pos; [lra | left; apply Rinv_0_lt_compat; exact Hv].
Qed.

Lemma GenerateSpline_stores (self : UCatmullRomSpline) (pts : list FVector) :
  (2 <= length (RemoveConsecutiveDuplicates pts))%nat ->
  PValues (snd (GenerateSpline self pts))
  = PadWithPhantoms (RemoveConsecutiveDuplicates pts)
  /\ TValues (snd (GenerateSpline self pts))
     = KnotValues (PadWithPhantoms (RemoveConsecutiveDuplicates pts)).
Proof.
  intros H. rewrite (GenerateSpline_success self pts H). split; reflexivity.
Qed.

(** ** Points on the x axis *)

Lemma Extrapolate_OnXAxis (x y : R) :
  Extrapolate (OnXAxis x) (OnXAxis y) = OnXAxis (2 * x - y).
Proof. unfold Extrapolate, OnXAxis, VSub, VScale. simpl. f_equal; ring. Qed.

Lemma Dist_OnXAxis (x y c : R) :
  0 <= c -> y - x = c -> Dist (OnXAxis x) (OnXAxis y) = c.
Proof.
  intros Hc E. unfold Dist, Size, SizeSquared, VSub, OnXAxis. simpl.
  replace ((y - x) * (y - x) + (0 - 0) * (0 - 0) + (0 - 0) * (0 - 0))
    with (c * c) by (rewrite E; ring).
  apply sqrt_square. exact Hc.
Qed.

Lemma PowAlpha_Dist_OnXAxis (x y c : R) :
  0 <= c -> y - x = c * c -> PowAlpha (Dist (OnXAxis x) (OnXAxis y)) = c.
Proof.
  intros Hc E. rewrite (Dist_OnXAxis x y (c * c)); [| nra | exact E].
  apply sqrt_square. exact Hc.
Qed.

Lemma Size_OnXAxis (x : R) : 0 <= x -> Size (OnXAxis x) = x.
Proof.
  intros Hx. unfold Size, SizeSquared, OnXAxis. simpl.
  replace (x * x + 0 * 0 + 0 * 0) with (x * x) by ring.
  apply sqrt_square. exact Hx.
Qed.

Lemma OnXAxis_injective (x y : R) : OnXAxis x = OnXAxis y -> x = y.
Proof. intros E. injection E. trivial. Qed.

(** ** The four collinear points *)

Lemma FourCollinear_usable : RemoveConsecutiveDuplicates FourCollinear = FourCollinear.
Proof.
  unfold FourCollinear.
  repeat (rewrite RemoveConsecutiveDuplicates_step;
          destruct (FVector_eq_dec _ _) as [E | _];
          [apply OnXAxis_injective in E; lra |]).
  reflexivity.
Qed.

Lemma FourCollinear_padded :
  PadWithPhantoms FourCollinear
  = [OnXAxis (-100); OnXAxis 0; OnXAxis 100; OnXAxis 200; OnXAxis 300; OnXAxis 400].
Proof.
  unfold PadWithPhantoms, FourCollinear. cbn [length nth app Nat.sub].
  rewrite !Extrapolate_OnXAxis.
  replace (2 * 0 - 100) with (-100) by lra.
  replace (2 * 300 - 200) with 400 by lra. reflexivity.
Qed.

Lemma FourCollinear_knots :
  KnotValues (PadWithPhantoms FourCollinear) = [0; 10; 20; 30; 40; 50].
Proof.
  rewrite FourCollinear_padded. cbn [KnotValues KnotsFrom].
  rewrite !(PowAlpha_Dist_OnXAxis _ _ 10) by lra.
  repeat (f_equal; try lra).
Qed.

(** ** The unit segment *)

Lemma UnitSegment_usable : RemoveConsecutiveDuplicates UnitSegment = UnitSegment.
Proof.
  unfold UnitSegment.
  repeat (rewrite RemoveConsecutiveDuplicates_step;
          destruct (FVector_eq_dec _ _) as [E | _];
          [apply OnXAxis_injective in E; lra |]).
  reflexivity.
Qed.

(** ** The arc length in every state of the object *)

Lemma Last_final {A : Type} (front : list A) (a : A) : Last (front ++ [a]) = ret a.
Proof.
  destruct front as [| x front]; [reflexivity |].
  change ((x :: front) ++ [a]) with (x :: (front ++ [a])).
  rewrite Last_cons_last, last_last. reflexivity.
Qed.

(** X1.  [GetArcLength] has exactly three outcomes, told apart by the
    valid flag and the distance table: on an invalid spline it returns 0
    with the "Curve is not valid." diagnostic, whatever the table holds; on
    a valid spline with an empty table the range check of [Last] stops the
    program; on a valid spline with a filled table it returns the final
    entry of the table and no diagnostic. *)
Theorem GetArcLength_three_outcomes (s : UCatmullRomSpline) :
  (bValid s = false /\ GetArcLength s = Returned 0 [CurveNotValid])
  \/ (bValid s = true /\ DistanceLUT s = [] /\ GetArcLength s = Crashed)
  \/ (bValid s = true
      /\ exists front a,
           DistanceLUT s = front ++ [a] /\ GetArcLength s = Returned a []).
Proof.
  unfold GetArcLength. destruct (bValid s).
  - right. destruct (DistanceLUT s) as [| x l].
    + left. repeat split; reflexivity.
    + right. split; [reflexivity |].
      destruct (@exists_last _ (x :: l)) as [front [a E]]; [discriminate |].
      exists front, a. rewrite E. split; [reflexivity |].
      cbn [ensureMsgf bind negb]. rewrite Last_final. reflexivity.
  - left. split; reflexivity.
Qed.

Lemma GenerateSpline_valid_Built (self : UCatmullRomSpline) (pts : list FVector) :
  bValid (snd (GenerateSpline self pts)) = true ->
  Built (snd (GenerateSpline self pts)).
Proof.
  intros H.
  destruct (Nat.lt_ge_cases (length (RemoveConsecutiveDuplicates pts)) 2) as [Hs | Hs].
  - rewrite (GenerateSpline_failure self pts Hs) in H. discriminate.
  - apply Built_of_usable. exact Hs.
Qed.

Lemma GenerateSplines_valid_Built (calls : list (list FVector)) (self : UCatmullRomSpline) :
  (bValid self = true -> Built self) ->
  bValid (GenerateSplines self calls) = true -> Built (GenerateSplines self calls).
Proof.
  revert self. induction calls as [| pts rest IH]; intros self H0.
  - exact H0.
  - cbn [GenerateSplines]. apply IH. apply GenerateSpline_valid_Built.
Qed.

Lemma NewSpline_valid_Built : bValid NewSpline = true -> Built NewSpline.
Proof. discriminate. Qed.

(** X2.  On an object that has gone through the constructor and then any
    sequence of calls of [GenerateSpline], [GetArcLength] never reaches the
    failing range check: either the object is valid, and the call returns a
    length that is not negative and no diagnostic, or the object is
    invalid, and the call returns 0 with the diagnostic. *)
Theorem GetArcLength_after_any_construction (calls : list (list FVector)) :
  let s := GenerateSplines NewSpline calls in
  (bValid s = true /\ exists A, GetArcLength s = Returned A [] /\ 0 <= A)
  \/ (bValid s = false /\ GetArcLength s = Returned 0 [CurveNotValid]).
Proof.
  intros s. destruct (bValid s) eqn:Hv.
  - left. split; [reflexivity |].
    pose proof (GenerateSplines_valid_Built calls NewSpline NewSpline_valid_Built Hv) as HB.
    fold s in HB. destruct (Built_table s HB) as [l [Hl [_ [Hpos _]]]].
    exists (last l 0). split; [| exact Hpos].
    apply GetArcLength_valid; assumption.
  - right. split; [reflexivity |]. unfold GetArcLength. rewrite Hv. reflexivity.
Qed.

(** ** The spline factory of the function library *)

Lemma RemoveConsecutiveDuplicates_one_coincident (pts : list FVector) :
  (length (RemoveConsecutiveDuplicates pts) <= 1)%nat -> AllCoincident pts.
Proof.
  induction pts as [| p rest IH]; intros H.
  - exists ZeroVector. constructor.
  - destruct rest as [| q rest].
    + exists p. constructor; [reflexivity | constructor].
    + rewrite RemoveConsecutiveDuplicates_step in H.
      destruct (FVector_eq_dec p q) as [E | E].
      * destruct (IH H) as [c Hc]. exists c. constructor; [| exact Hc].
        inversion Hc. congruence.
      * exfalso. destruct (RemoveConsecutiveDuplicates_head q rest) as [tl Htl].
        rewrite Htl in H. simpl in H. lia.
Qed.

Lemma MakeCatmullRomSpline_Some (pts : list FVector) (s : UCatmullRomSpline) :
  MakeCatmullRomSpline pts = Some s ->
  (2 <= length (RemoveConsecutiveDuplicates pts))%nat
  /\ s = snd (GenerateSpline NewSpline pts) /\ Built s.
Proof.
  rewrite MakeCatmullRomSpline_result.
  destruct (Nat.ltb_spec (length (RemoveConsecutiveDuplicates pts)) 2) as [Hs | Hs];
    [discriminate |].
  intros E. injection E as E. subst s.
  split; [exact Hs |]. split; [reflexivity |]. apply Built_of_usable. exact Hs.
Qed.

(** X4.  [MakeCatmullRomSpline] returns [nullptr] exactly for the inputs
    whose points all coincide, which includes the empty input and every
    input of one point; for every other input it returns an object. *)
Theorem MakeCatmullRomSpline_null_iff_coincident (pts : list FVector) :
  MakeCatmullRomSpline pts = None <-> AllCoincident pts.
Proof.
  rewrite MakeCatmullRomSpline_result.
  destruct (Nat.ltb_spec (length (RemoveConsecutiveDuplicates pts)) 2) as [Hs | Hs].
  - split; [intros _ | reflexivity].
    apply RemoveConsecutiveDuplicates_one_coincident. lia.
  - split; [discriminate |]. intros Hc.
    pose proof (RemoveConsecutiveDuplicates_coincident pts Hc). lia.
Qed.

(** X5.  An object that [MakeCatmullRomSpline] returns is never invalid:
    its valid flag is set, and [GetArcLength] returns on it, without a
    diagnostic and without reaching the failing range check, a length that
    is not negative. *)
Theorem MakeCatmullRomSpline_returns_valid_spline
  (pts : list FVector) (s : UCatmullRomSpline) :
  MakeCatmullRomSpline pts = Some s ->
  bValid s = true
  /\ exists A, GetArcLength s = Returned A [] /\ 0 <= A.
Proof.
  intros H. destruct (MakeCatmullRomSpline_Some pts s H) as [_ [_ HB]].
  split; [apply Built_valid; exact HB |].
  destruct (Built_table s HB) as [l [Hl [_ [Hpos _]]]].
  exists (last l 0). split; [| exact Hpos].
  apply GetArcLength_valid; [apply Built_valid; exact HB | exact Hl].
Qed.

(** ** Distances outside the curve *)

(** X6.  On every built (valid) spline, [SampleSplineByDistance] answers
    every distance that is zero or negative with the sample at parameter 0
    and every positive distance that is at least the arc length with the
    sample at parameter 1: outside the measured curve it stays on the end
    points of the curve. *)
Theorem SampleSplineByDistance_outside_the_curve (s : UCatmullRomSpline) :
  Built s ->
  exists A,
    GetArcLength s = Returned A []
    /\ (forall d, d <= 0 ->
          SampleSplineByDistance s d = SampleSplineByParameter s 0)
    /\ (forall d, 0 < d -> A <= d ->
          SampleSplineByDistance s d = SampleSplineByParameter s 1).
Proof.
  intros HB. exists (last (DistanceLUT s) 0).
  split; [apply GetArcLength_Built; exact HB |]. split.
  - intros d Hd. rewrite (SampleSplineByDistance_Built s d HB).
    rewrite (SampleSplineByParameter_Built s 0 HB).
    unfold InverseLUT. destruct (Rle_dec d 0); [reflexivity | lra].
  - intros d Hd HA. rewrite (SampleSplineByDistance_Built s d HB).
    rewrite (SampleSplineByParameter_Built s 1 HB).
    unfold InverseLUT. destruct (Rle_dec d 0); [lra |].
    destruct (Rle_dec (last (DistanceLUT s) 0) d); [reflexivity | lra].
Qed.


(** ** The pitch of the camera boom *)

Lemma Clamp_between (x lo hi : R) : lo <= hi -> lo <= Clamp x lo hi <= hi.
Proof.
  intros H. unfold Clamp.
  destruct (Rlt_dec x lo); [lra |]. destruct (Rlt_dec hi x); lra.
Qed.

Lemma Clamp_monotone (x y lo hi : R) :
  lo <= hi -> x <= y -> Clamp x lo hi <= Clamp y lo hi.
Proof.
  intros H Hxy. unfold Clamp.
  destruct (Rlt_dec x lo); destruct (Rlt_dec y lo);
    destruct (Rlt_dec hi x); destruct (Rlt_dec hi y); lra.
Qed.

(** X8.  Whatever rotation the camera boom has and whatever the rate,
    [LookUpAtRate] leaves the boom with a pitch between -70 and 70 degrees
    and with yaw and roll zero. *)
Theorem LookUpAtRate_pitch_limited (Rot : FRotator) (Rate : R) :
  -70 <= Pitch (LookUpAtRate Rot Rate) <= 70
  /\ Yaw (LookUpAtRate Rot Rate) = 0
  /\ Roll (LookUpAtRate Rot Rate) = 0.
Proof.
  split; [| split; reflexivity].
  cbn [LookUpAtRate Pitch]. apply Clamp_between. lra.
Qed.

(** X11.  The pitch that [LookUpAtRate] leaves grows with the rate: a
    larger rate never leaves a smaller pitch. *)
Theorem LookUpAtRate_monotone (Rot : FRotator) (r1 r2 : R) :
  r1 <= r2 -> Pitch (LookUpAtRate Rot r1) <= Pitch (LookUpAtRate Rot r2).
Proof.
  intros H. cbn [LookUpAtRate Pitch]. apply Clamp_monotone; lra.
Qed.

(** ** A usable range of no length *)







(** ** Inputs with a duplicate or a short chord *)







End Spline.

(** * Worked instances

    The statements above are instantiated at [ExampleResolution] table
    increments and the threshold [ExampleNearZero]. *)

Lemma ExampleResolution_positive : (0 < ExampleResolution)%nat.
Proof. unfold ExampleResolution. lia. Qed.


Lemma UnitSegment_two_usable :
  (2 <= length (RemoveConsecutiveDuplicates UnitSegment))%nat.
Proof. rewrite UnitSegment_usable. simpl. lia. Qed.

Lemma FourCollinear_four_usable :
  (4 <= length (RemoveConsecutiveDuplicates FourCollinear))%nat.
Proof. rewrite FourCollinear_usable. simpl. lia. Qed.

Lemma FourCollinear_Built :
  Built ExampleResolution ExampleNearZero
        (snd (GenerateSpline ExampleResolution ExampleNearZero NewSpline FourCollinear)).
Proof.
  apply Built_of_usable. pose proof FourCollinear_four_usable. lia.
Qed.


(** Construction succeeds on the unit segment and fails on the two
    degenerate inputs of the design document. *)
Lemma GenerateSpline_succeeds_iff_two_usable_points_witness :
  (fst (GenerateSpline ExampleResolution ExampleNearZero NewSpline UnitSegment) = true
   /\ bValid (snd (GenerateSpline ExampleResolution ExampleNearZero NewSpline UnitSegment))
      = true)
  /\ (fst (GenerateSpline ExampleResolution ExampleNearZero NewSpline SinglePoint) = false
      /\ bValid (snd (GenerateSpline ExampleResolution ExampleNearZero NewSpline SinglePoint))
         = false)
  /\ (fst (GenerateSpline ExampleResolution ExampleNearZero NewSpline TwiceOrigin) = false
      /\ bValid (snd (GenerateSpline ExampleResolution ExampleNearZero NewSpline TwiceOrigin))
         = false).
Proof.
  split; [| split].
  - apply (proj1 (GenerateSpline_succeeds_iff_two_usable_points
                    ExampleResolution ExampleNearZero NewSpline UnitSegment)).
    exact UnitSegment_two_usable.
  - apply (proj2 (proj2 (GenerateSpline_succeeds_iff_two_usable_points
                           ExampleResolution ExampleNearZero NewSpline SinglePoint))).
    left. simpl. lia.
  - apply (proj2 (proj2 (GenerateSpline_succeeds_iff_two_usable_points
                           ExampleResolution ExampleNearZero NewSpline TwiceOrigin))).
    right. exists ZeroVector. repeat constructor.
Defined.

(** A spline that was never built answers every sampling call with its
    sentinel. *)
Lemma invalid_spline_returns_sentinels_witness :
  GetArcLength NewSpline = Returned 0 [CurveNotValid]
  /\ (forall T, SampleSplineByParameter ExampleNearZero NewSpline T
                = Returned ZeroVector [CurveNotValid])
  /\ (forall d, FindParameterForDistance NewSpline d = Returned 0 [CurveNotValid])
  /\ (forall d, SampleSplineByDistance ExampleNearZero NewSpline d
                = Returned ZeroVector [CurveNotValid; CurveNotValid])
  /\ (forall L, EquidistantSamples ExampleNearZero NewSpline L
                = Returned [] [CurveNotValid]).
Proof.
  apply (invalid_spline_returns_sentinels ExampleNearZero NewSpline). reflexivity.
Defined.



(** The inversion is monotone between the distances 25 and 50 on the
    spline through the four collinear points. *)
Lemma FindParameterForDistance_monotone_witness :
  exists T1 T2,
    FindParameterForDistance
      (snd (GenerateSpline ExampleResolution ExampleNearZero NewSpline FourCollinear))
      25
    = Returned T1 []
    /\ FindParameterForDistance
         (snd (GenerateSpline ExampleResolution ExampleNearZero NewSpline FourCollinear))
         50
       = Returned T2 []
    /\ T1 <= T2.
Proof.
  apply (FindParameterForDistance_monotone ExampleResolution ExampleNearZero).
  - exact FourCollinear_Built.
  - lra.
Defined.


(** ** Instances of the further properties *)

Lemma FourCollinear_made :
  MakeCatmullRomSpline ExampleResolution ExampleNearZero FourCollinear
  = Some (snd (GenerateSpline ExampleResolution ExampleNearZero NewSpline FourCollinear)).
Proof.
  rewrite MakeCatmullRomSpline_result.
  destruct (Nat.ltb_spec (length (RemoveConsecutiveDuplicates FourCollinear)) 2) as [H | H];
    [| reflexivity].
  pose proof FourCollinear_four_usable. lia.
Qed.

(** No object is made from the origin given twice. *)
Lemma MakeCatmullRomSpline_null_iff_coincident_witness :
  MakeCatmullRomSpline ExampleResolution ExampleNearZero TwiceOrigin = None.
Proof.
  apply (proj2 (MakeCatmullRomSpline_null_iff_coincident
                  ExampleResolution ExampleNearZero TwiceOrigin)).
  exists ZeroVector. repeat constructor.
Defined.

(** Distances outside the spline through the four collinear points. *)
Lemma SampleSplineByDistance_outside_the_curve_witness :
  exists A,
    GetArcLength
      (snd (GenerateSpline ExampleResolution ExampleNearZero NewSpline FourCollinear))
    = Returned A []
    /\ (forall d, d <= 0 ->
          SampleSplineByDistance ExampleNearZero
            (snd (GenerateSpline ExampleResolution ExampleNearZero NewSpline FourCollinear)) d
          = SampleSplineByParameter ExampleNearZero
              (snd (GenerateSpline ExampleResolution ExampleNearZero NewSpline FourCollinear))
              0)
    /\ (forall d, 0 < d -> A <= d ->
          SampleSplineByDistance ExampleNearZero
            (snd (GenerateSpline ExampleResolution ExampleNearZero NewSpline FourCollinear)) d
          = SampleSplineByParameter ExampleNearZero
              (snd (GenerateSpline ExampleResolution ExampleNearZero NewSpline FourCollinear))
              1).
Proof.
  apply (SampleSplineByDistance_outside_the_curve ExampleResolution ExampleNearZero).
  exact FourCollinear_Built.
Defined.


(** The object made from the four collinear points is valid and has a
    length. *)
Lemma MakeCatmullRomSpline_returns_valid_spline_witness :
  bValid (snd (GenerateSpline ExampleResolution ExampleNearZero NewSpline FourCollinear))
  = true
  /\ exists A,
       GetArcLength
         (snd (GenerateSpline ExampleResolution ExampleNearZero NewSpline FourCollinear))
       = Returned A []
       /\ 0 <= A.
Proof.
  apply (MakeCatmullRomSpline_returns_valid_spline
           ExampleResolution ExampleNearZero FourCollinear).
  exact FourCollinear_made.
Defined.

(** From a pitch of 60 degrees, rate 1 against rate 2. *)
Lemma LookUpAtRate_monotone_witness :
  Pitch (LookUpAtRate (MakeRotator 60 0 0) 1)
  <= Pitch (LookUpAtRate (MakeRotator 60 0 0) 2).
Proof.
  apply (LookUpAtRate_monotone (MakeRotator 60 0 0) 1 2). lra.
Defined.

(** ** Inputs on which the statements of the design document fail *)


